(** * CalcVis: the numerical core of the linked function / derivative /
      antiderivative views

    A shallow embedding of [src/utils/mathUtils.ts] (sampling, finite
    differences, trapezoidal integration) and of the three drag handlers of
    [src/App.tsx], with the properties the specification states about them.

    Layout:
    - [Number]: the arithmetic of JavaScript's [number], as an interface.  The
      engines are written once against it; [Float] instantiates it with IEEE 754
      binary64 (what the program runs on) and [Exact] with the rationals (the
      reals of the specification's data model).
    - The engines on [list (Point num)], the TypeScript type [Point[]].
    - The run-time layer: arrays with missing elements, points with missing
      fields and [TypeError], needed because the drag handlers write
      [next[index]] without looking at [index].
    - The component state of [App.tsx] with its effect, the pointer handler of
      the graph component and the result handling of [geminiService.ts].
    - Theorems. *)

From Stdlib Require Import ZArith QArith Qcanon Lia.
From Stdlib Require PrimFloat FloatClass FloatOps FloatAxioms Uint63.
From stdpp Require Import base list strings.

(** ** Numbers *)

(** The operations the sources apply to values of type [number].  [lit n] is
    the number a non-negative integer literal or loop counter [n] denotes,
    [less] is [<], and [truthy] is the conversion to boolean that [||]
    performs. *)
Class Number (num : Type) : Type := {
  nadd : num → num → num;
  nsub : num → num → num;
  nmul : num → num → num;
  ndiv : num → num → num;
  lit : nat → num;
  less : num → num → bool;
  truthy : num → bool
}.

(** [nan] is the number that [undefined] converts to in an arithmetic
    operation.  Only the run-time layer reads it. *)
Class NotANumber (num : Type) : Type := nan : num.

Declare Scope num_scope.
Delimit Scope num_scope with num.
Infix "+" := nadd : num_scope.
Infix "-" := nsub : num_scope.
Infix "*" := nmul : num_scope.
Infix "/" := ndiv : num_scope.

(** ** Data model ([types.ts]) *)

Record Point (num : Type) : Type := mkPoint { x : num; y : num }.
Arguments mkPoint {num} _ _.
Arguments x {num} _.
Arguments y {num} _.

(** [{ ...p, y: newY }] for a point [p]. *)
Definition with_y {num} (p : Point num) (newY : num) : Point num :=
  {| x := x p; y := newY |}.

Section Engines.
Context {num : Type} `{!Number num}.

(** Reading [points[i]] where the type discipline promises an element.
    [runtime_calculateDerivative_typed] and [runtime_calculateIntegral_typed]
    below show that on the paths the engines take the element is always
    there. *)
#[global] Instance Point_inhabited : Inhabited (Point num) :=
  populate {| x := lit 0; y := lit 0 |}.

(** *** Sampling ([generateFunctionPoints]) *)

(** [steps] is the sample count, a non-negative integer. *)
Definition generateFunctionPoints
    (func : num → num) (minX maxX : num) (steps : nat) : list (Point num) :=
  let points := [] in
  let stepSize := ((maxX - minX) / (lit steps - lit 1))%num in
  foldl (λ points i,
           let xv := (minX + lit i * stepSize)%num in
           let yv := func xv in
           points ++ [ {| x := xv; y := yv |} ])
        points (seq 0 steps).

(** *** Differentiation engine ([calculateDerivative]) *)

(** The body of the loop: the slope at index [i]. *)
Definition slope (points : list (Point num)) (i : nat) : num :=
  if bool_decide (i = 0) then
    ((y (points !!! (i + 1)%nat) - y (points !!! i))
     / (x (points !!! (i + 1)%nat) - x (points !!! i)))%num
  else if bool_decide (i = length points - 1) then
    ((y (points !!! i) - y (points !!! (i - 1)%nat))
     / (x (points !!! i) - x (points !!! (i - 1)%nat)))%num
  else
    ((y (points !!! (i + 1)%nat) - y (points !!! (i - 1)%nat))
     / (x (points !!! (i + 1)%nat) - x (points !!! (i - 1)%nat)))%num.

Definition calculateDerivative (points : list (Point num)) : list (Point num) :=
  if bool_decide (length points < 2) then []
  else
    let derivative := [] in
    foldl (λ derivative i,
             derivative ++ [ {| x := x (points !!! i); y := slope points i |} ])
          derivative (seq 0 (length points)).

(** *** Integration engine ([calculateIntegral]) *)

(** One turn of the loop, on the pair of the array being built and the
    running total.  (Every call in the sources passes [initialC]; its default,
    [0], is never used.) *)
Definition integral_step (points : list (Point num))
    (st : list (Point num) * num) (i : nat) : list (Point num) * num :=
  let '(integral, accumulatedArea) := st in
  let dx := (x (points !!! i) - x (points !!! (i - 1)%nat))%num in
  let avgHeight := ((y (points !!! i) + y (points !!! (i - 1)%nat)) / lit 2)%num in
  let accumulatedArea := (accumulatedArea + avgHeight * dx)%num in
  (integral ++ [ {| x := x (points !!! i); y := accumulatedArea |} ],
   accumulatedArea).

Definition calculateIntegral (points : list (Point num)) (initialC : num)
    : list (Point num) :=
  if bool_decide (length points < 1) then []
  else
    let accumulatedArea := initialC in
    let integral := [ {| x := x (points !!! 0); y := accumulatedArea |} ] in
    (foldl (integral_step points) (integral, accumulatedArea)
           (seq 1 (length points - 1))).1.

(** The running total after [i] trapezoids, written as the recurrence of the
    specification (section 4.2): it starts at [C] and each sample adds
    [((y[i] + y[i-1]) / 2) * (x[i] - x[i-1])].  [calculateIntegral_closed]
    relates the loop to it. *)
Fixpoint running_total (points : list (Point num)) (C : num) (i : nat) : num :=
  match i with
  | 0 => C
  | S k =>
      (running_total points C k
       + ((y (points !!! S k) + y (points !!! k)) / lit 2)
         * (x (points !!! S k) - x (points !!! k)))%num
  end.

(** *** The sequence invariant *)

Fixpoint increasing (l : list num) : bool :=
  match l with
  | a :: (b :: _) as rest => less a b && increasing rest
  | _ => true
  end.

(** [strictly_increasing points]: the x-values grow from each point to the
    next. *)
Definition strictly_increasing (points : list (Point num)) : Prop :=
  increasing (x <$> points) = true.

End Engines.

(** ** The run-time layer

    TypeScript's types are erased: the drag handlers of [App.tsx] store into
    [next[index]] whatever [index] is, so the arrays they build can miss
    elements and hold objects without an [x].  This layer gives the engines and
    the handlers the meaning they have on such arrays.  An index is an integer
    here; fractional indices are not modelled. *)

(** How a computation ends: with a value, or with the [TypeError] raised by a
    property read on [undefined]. *)
Inductive completion (A : Type) : Type :=
  | Normal (a : A)
  | TypeError.
Arguments Normal {A} _.
Arguments TypeError {A}.

#[global] Instance completion_ret : MRet completion := λ A a, Normal a.
#[global] Instance completion_bind : MBind completion := λ A B f m,
  match m with
  | Normal a => f a
  | TypeError => TypeError
  end.

(** What a property of an object holds: [undefined] or a number. *)
Inductive JsValue (num : Type) : Type :=
  | Undefined
  | Num (n : num).
Arguments Undefined {num}.
Arguments Num {num} _.

(** An object as the sources see it, through its properties [x] and [y]. *)
Record JsObject (num : Type) : Type :=
  mkObject { prop_x : JsValue num; prop_y : JsValue num }.
Arguments mkObject {num} _ _.
Arguments prop_x {num} _.
Arguments prop_y {num} _.

(** An array; [None] is an element that is not there (a hole), which reads as
    [undefined]. *)
Abbreviation JsArray num := (list (option (JsObject num))).

(** A well-typed point and a well-typed [Point[]] as run-time values. *)
Definition of_point {num} (p : Point num) : JsObject num :=
  {| prop_x := Num (x p); prop_y := Num (y p) |}.

Definition of_points {num} (points : list (Point num)) : JsArray num :=
  (λ p, Some (of_point p)) <$> points.

Module Runtime.
Section Runtime.
Context {num : Type} `{!Number num, !NotANumber num}.

(** [undefined] becomes [NaN] in arithmetic. *)
Definition ToNumber (v : JsValue num) : num :=
  match v with
  | Undefined => nan
  | Num n => n
  end.

(** [a[i]] for a non-negative integer [i]. *)
Definition element (a : JsArray num) (i : nat) : option (JsObject num) :=
  mjoin (a !! i).

(** [a[index]] for any integer [index]. *)
Definition element_at (a : JsArray num) (index : Z) : option (JsObject num) :=
  if bool_decide (0 ≤ index)%Z then element a (Z.to_nat index) else None.

(** The check behind [e.x] and [e.y]. *)
Definition object_of (e : option (JsObject num)) : completion (JsObject num) :=
  match e with
  | Some o => Normal o
  | None => TypeError
  end.

(** [{ ...e, y: newY }]: spreading [undefined] contributes nothing. *)
Definition spread_with_y (e : option (JsObject num)) (newY : num) : JsObject num :=
  match e with
  | Some o => {| prop_x := prop_x o; prop_y := Num newY |}
  | None => {| prop_x := Undefined; prop_y := Num newY |}
  end.

(** The largest array index, [2^32 - 2]. *)
Definition MAX_ARRAY_INDEX : Z := 4294967294.

(** [a[index] = v].  From [length a] up to the largest array index the array
    grows up to [index], leaving holes.  A negative [index], or one beyond the
    largest array index, names an ordinary property, which neither [length]
    nor an indexed read nor a spread sees.  (An array has at most [2^32 - 1]
    elements, so an index below its length is an array index.) *)
Definition assign (a : JsArray num) (index : Z) (v : JsObject num) : JsArray num :=
  if bool_decide (index < 0)%Z then a
  else
    let i := Z.to_nat index in
    if bool_decide (i < length a) then <[i := Some v]> a
    else if bool_decide (index ≤ MAX_ARRAY_INDEX)%Z then
      a ++ replicate (i - length a) None ++ [Some v]
    else a.

(** [e?.y]. *)
Definition optional_y (e : option (JsObject num)) : JsValue num :=
  match e with
  | Some o => prop_y o
  | None => Undefined
  end.

(** [v || d] for a number [d]. *)
Definition or_number (v : JsValue num) (d : num) : num :=
  match v with
  | Num n => if truthy n then n else d
  | Undefined => d
  end.

(** [calculateDerivative] *)

Definition slope (points : JsArray num) (i : nat) : completion num :=
  if bool_decide (i = 0) then
    p1 ← object_of (element points (i + 1));
    p0 ← object_of (element points i);
    mret ((ToNumber (prop_y p1) - ToNumber (prop_y p0))
          / (ToNumber (prop_x p1) - ToNumber (prop_x p0)))%num
  else if bool_decide (i = length points - 1) then
    p1 ← object_of (element points i);
    p0 ← object_of (element points (i - 1));
    mret ((ToNumber (prop_y p1) - ToNumber (prop_y p0))
          / (ToNumber (prop_x p1) - ToNumber (prop_x p0)))%num
  else
    p1 ← object_of (element points (i + 1));
    p0 ← object_of (element points (i - 1));
    mret ((ToNumber (prop_y p1) - ToNumber (prop_y p0))
          / (ToNumber (prop_x p1) - ToNumber (prop_x p0)))%num.

Definition derivative_step (points : JsArray num)
    (st : completion (JsArray num)) (i : nat) : completion (JsArray num) :=
  derivative ← st;
  s ← slope points i;
  p ← object_of (element points i);
  mret (derivative ++ [ Some {| prop_x := prop_x p; prop_y := Num s |} ]).

Definition calculateDerivative (points : JsArray num) : completion (JsArray num) :=
  if bool_decide (length points < 2) then mret []
  else foldl (derivative_step points) (mret []) (seq 0 (length points)).

(** [calculateIntegral] *)

Definition integral_step (points : JsArray num)
    (st : completion (JsArray num * num)) (i : nat)
    : completion (JsArray num * num) :=
  '(integral, accumulatedArea) ← st;
  p1 ← object_of (element points i);
  p0 ← object_of (element points (i - 1));
  let dx := (ToNumber (prop_x p1) - ToNumber (prop_x p0))%num in
  let avgHeight := ((ToNumber (prop_y p1) + ToNumber (prop_y p0)) / lit 2)%num in
  let accumulatedArea := (accumulatedArea + avgHeight * dx)%num in
  mret (integral ++ [ Some {| prop_x := prop_x p1; prop_y := Num accumulatedArea |} ],
        accumulatedArea).

Definition calculateIntegral (points : JsArray num) (initialC : num)
    : completion (JsArray num) :=
  if bool_decide (length points < 1) then mret []
  else
    let accumulatedArea := initialC in
    first ← object_of (element points 0);
    let integral := [ Some {| prop_x := prop_x first; prop_y := Num accumulatedArea |} ] in
    st ← foldl (integral_step points) (mret (integral, accumulatedArea))
               (seq 1 (length points - 1));
    mret st.1.

End Runtime.
End Runtime.

(** ** The reconstruction coordinator ([App.tsx]) *)

Section Handlers.
Context {num : Type} `{!Number num, !NotANumber num}.

(** The state update of a drag on f(x): [prev] is the current PRIMARY. *)
Definition handleFunctionDrag (prev : JsArray num) (index : Z) (newY : num)
    : completion (JsArray num) :=
  let next := prev in
  let next := Runtime.assign next index
                (Runtime.spread_with_y (Runtime.element_at next index) newY) in
  mret next.

(** A drag on f'(x): the result is the new PRIMARY. *)
Definition handleDerivativeDrag (derivativePoints functionPoints : JsArray num)
    (index : Z) (newY : num) : completion (JsArray num) :=
  let modifiedDerivative := derivativePoints in
  let modifiedDerivative :=
    Runtime.assign modifiedDerivative index
      (Runtime.spread_with_y (Runtime.element_at modifiedDerivative index) newY) in
  let startY :=
    Runtime.or_number (Runtime.optional_y (Runtime.element_at functionPoints 0))
                      (lit 0) in
  reconstructedFunction ← Runtime.calculateIntegral modifiedDerivative startY;
  mret reconstructedFunction.

(** A drag on F(x): the result is the new PRIMARY. *)
Definition handleIntegralDrag (integralPoints : JsArray num)
    (index : Z) (newY : num) : completion (JsArray num) :=
  let modifiedIntegral := integralPoints in
  let modifiedIntegral :=
    Runtime.assign modifiedIntegral index
      (Runtime.spread_with_y (Runtime.element_at modifiedIntegral index) newY) in
  reconstructedFunction ← Runtime.calculateDerivative modifiedIntegral;
  mret reconstructedFunction.

End Handlers.

(** ** The two arithmetics *)

(** IEEE 754 binary64, the arithmetic of the running program. *)
Module Float.
Import PrimFloat.

(** The conversion is the exact one for every counter a loop of the program
    can reach (below 2^53). *)
Definition of_nat (n : nat) : float := of_uint63 (Uint63.of_Z (Z.of_nat n)).

(** [0], [-0] and [NaN] are the falsy numbers. *)
Definition to_boolean (f : float) : bool := negb (eqb f 0) && eqb f f.

#[global] Instance number : Number float := {|
  nadd := add; nsub := sub; nmul := mul; ndiv := div;
  lit := of_nat; less := ltb; truthy := to_boolean
|}.

#[global] Instance not_a_number : NotANumber float := PrimFloat.nan.

Definition pt (a b : float) : Point float := {| x := a; y := b |}.
End Float.

(** The rationals: arithmetic without rounding. *)
Module Exact.
Definition of_nat (n : nat) : Qc := Q2Qc (inject_Z (Z.of_nat n)).

Definition ltb (a b : Qc) : bool :=
  match (a ?= b)%Qc with
  | Lt => true
  | _ => false
  end.

Definition to_boolean (q : Qc) : bool := negb (Qc_eq_bool q 0).

#[global] Instance number : Number Qc := {|
  nadd := Qcplus; nsub := Qcminus; nmul := Qcmult; ndiv := Qcdiv;
  lit := of_nat; less := ltb; truthy := to_boolean
|}.

Definition pt (a b : Z) : Point Qc :=
  {| x := Q2Qc (inject_Z a); y := Q2Qc (inject_Z b) |}.
End Exact.


(** ** The component state ([App.tsx])

    The three sequences the component keeps with [useState].  A drag handler
    reads the state of the last render and replaces [functionPoints]; the
    effect that depends on [functionPoints] then recomputes the two derived
    sequences.  React runs the effect before it handles the next event, so an
    event is modelled as the handler followed by the effect.  (The AI text and
    its busy flag are left out: no sequence depends on them.) *)

Record AppState (num : Type) : Type := mkAppState {
  functionPoints : JsArray num;
  derivativePoints : JsArray num;
  integralPoints : JsArray num
}.
Arguments mkAppState {num} _ _ _.
Arguments functionPoints {num} _.
Arguments derivativePoints {num} _.
Arguments integralPoints {num} _.

(** What the user can do to the sequences. *)
Inductive Event (num : Type) : Type :=
  | LoadPreset (func : num → num)
  | FunctionDrag (index : Z) (newY : num)
  | DerivativeDrag (index : Z) (newY : num)
  | IntegralDrag (index : Z) (newY : num).
Arguments LoadPreset {num} _.
Arguments FunctionDrag {num} _ _.
Arguments DerivativeDrag {num} _ _.
Arguments IntegralDrag {num} _ _.

Definition POINTS_COUNT : nat := 15.

Section App.
Context {num : Type} `{!Number num, !NotANumber num}.

(** The range constants, [-Math.PI] and [Math.PI] in the sources. *)
Variables (MIN_X MAX_X : num).

(** [useState<Point[]>([])], three times. *)
Definition initialState : AppState num :=
  {| functionPoints := []; derivativePoints := []; integralPoints := [] |}.

(** The effect on [functionPoints]: with no points it returns at once and the
    derived sequences stay as they are. *)
Definition updateDerived (st : AppState num) : completion (AppState num) :=
  if bool_decide (length (functionPoints st) = 0) then mret st
  else
    derivative ← Runtime.calculateDerivative (functionPoints st);
    integral ← Runtime.calculateIntegral (functionPoints st) (lit 0);
    mret {| functionPoints := functionPoints st;
            derivativePoints := derivative;
            integralPoints := integral |}.

Definition loadPreset (func : num → num) : JsArray num :=
  let points := generateFunctionPoints func MIN_X MAX_X POINTS_COUNT in
  of_points points.

(** The handler of an event: the new value of [functionPoints]. *)
Definition handle (st : AppState num) (ev : Event num) : completion (JsArray num) :=
  match ev with
  | LoadPreset func => mret (loadPreset func)
  | FunctionDrag index newY => handleFunctionDrag (functionPoints st) index newY
  | DerivativeDrag index newY =>
      handleDerivativeDrag (derivativePoints st) (functionPoints st) index newY
  | IntegralDrag index newY => handleIntegralDrag (integralPoints st) index newY
  end.

Definition dispatch (st : AppState num) (ev : Event num) : completion (AppState num) :=
  next ← handle st ev;
  updateDerived {| functionPoints := next;
                   derivativePoints := derivativePoints st;
                   integralPoints := integralPoints st |}.

Fixpoint run (st : AppState num) (events : list (Event num))
    : completion (AppState num) :=
  match events with
  | [] => mret st
  | ev :: rest => st' ← dispatch st ev; run st' rest
  end.

(** The state the specification calls consistent: PRIMARY is a well-typed
    sequence of at least two points and the other two views are its
    derivative and its integral from [0]. *)
Definition consistent (st : AppState num) (primary : list (Point num)) : Prop :=
  2 ≤ length primary
  ∧ functionPoints st = of_points primary
  ∧ derivativePoints st = of_points (calculateDerivative primary)
  ∧ integralPoints st = of_points (calculateIntegral primary (lit 0)).

(** A drag whose index is one of the [n] rendered handles. *)
Definition drag_below (n : nat) (ev : Event num) : Prop :=
  match ev with
  | LoadPreset _ => False
  | FunctionDrag index _ | DerivativeDrag index _ | IntegralDrag index _ =>
      (0 ≤ index < Z.of_nat n)%Z
  end.

End App.

(** ** The pointer handler of the graph component ([GraphContainer])

    [Math.max], [Math.min] and the unary minus are built in; [yScale.invert]
    belongs to d3 and is a parameter. *)

Class MathOps (num : Type) : Type := {
  Math_max : num → num → num;
  Math_min : num → num → num;
  nopp : num → num
}.

Section Pointer.
Context {num : Type} `{!Number num, !MathOps num}.

(** [Math.max(-10, Math.min(10, newVal))] *)
Definition clampedVal (newVal : num) : num :=
  Math_max (nopp (lit 10)) (Math_min (lit 10) newVal).

(** [handleMouseMove]: the call of [onPointDrag] it makes, if it makes one.
    [onPointDrag] tells whether the callback was given, [svgRect_top] is
    [svgRef.current?.getBoundingClientRect().top] and [clientY] the vertical
    position of the mouse or of the first touch. *)
Definition handleMouseMove (isInteractive onPointDrag : bool)
    (activePointIndex : option nat) (svgRect_top : option num)
    (yScale_invert : num → num) (clientY : num) : option (nat * num) :=
  if negb isInteractive || negb onPointDrag then None
  else
    match activePointIndex with
    | None => None
    | Some index =>
        match svgRect_top with
        | None => None
        | Some top =>
            let relY := (clientY - top - lit 20)%num in
            let newVal := yScale_invert relY in
            Some (index, clampedVal newVal)
        end
    end.

End Pointer.

(** [Math.max] and [Math.min] of two binary64 numbers (ECMAScript 21.3.2):
    NaN if an argument is NaN, and the negative zero is below the positive
    one. *)
Module FloatMath.
Import PrimFloat.

Definition is_negative_zero (f : float) : bool :=
  match classify f with
  | FloatClass.NZero => true
  | _ => false
  end.

Definition max (a b : float) : float :=
  if is_nan a || is_nan b then nan
  else if ltb a b then b
  else if ltb b a then a
  else if is_negative_zero a then b else a.

Definition min (a b : float) : float :=
  if is_nan a || is_nan b then nan
  else if ltb a b then a
  else if ltb b a then b
  else if is_negative_zero a then a else b.

#[global] Instance math_ops : MathOps float := {|
  Math_max := max; Math_min := min; nopp := opp
|}.
End FloatMath.

(** ** The AI commentary ([geminiService.ts]) *)

(** [l.filter((_, i) => keep(i))], counting from [i]. *)
Fixpoint filter_index {A : Type} (keep : nat → bool) (i : nat) (l : list A)
    : list A :=
  match l with
  | [] => []
  | a :: rest =>
      if keep i then a :: filter_index keep (S i) rest
      else filter_index keep (S i) rest
  end.

Section Gemini.
Context {num : Type}.

(** [toFixed(1)] of a number. *)
Variable toFixed_1 : num → string.

(** The text sent to the model around the sampled points, and the call
    itself: [None] when it throws or rejects, otherwise [response.text],
    which can be [undefined]. *)
Variable prompt_of : string → string.
Variable generateContent : string → option (option string).

(** [join(", ")] *)
Fixpoint join (parts : list string) : string :=
  match parts with
  | [] => ""
  | [s] => s
  | s :: rest => s +:+ ", " +:+ join rest
  end.

Definition downsample (points : list (Point num)) : list (Point num) :=
  filter_index (λ i, bool_decide (i mod 2 = 0)) 0 points.

Definition sampledPoints (points : list (Point num)) : string :=
  join ((λ p, "(" +:+ toFixed_1 (x p) +:+ ", " +:+ toFixed_1 (y p) +:+ ")")
          <$> downsample points).

Definition analyzeGraph (points : list (Point num)) : string :=
  let prompt := prompt_of (sampledPoints points) in
  match generateContent prompt with
  | Some response =>
      match response with
      | Some text => if bool_decide (text = "") then "Konnte keine Analyse generieren." else text
      | None => "Konnte keine Analyse generieren."
      end
  | None =>
      "Entschuldigung, beim Analysieren des Graphen ist ein Fehler aufgetreten. Bitte überprüfe deinen API-Schlüssel."
  end.

End Gemini.


(** * Properties *)

(** ** Loops as maps *)

(** A loop that pushes [f i] for each [i] of [l] builds [f <$> l]. *)
Lemma foldl_push {A B : Type} (f : B → A) (l : list B) (acc : list A) :
  foldl (λ acc i, acc ++ [f i]) acc l = acc ++ (f <$> l).
Proof.
  revert acc. induction l as [|b l IH]; intros acc; simpl.
  - by rewrite app_nil_r.
  - rewrite IH. by rewrite <- app_assoc.
Qed.

Lemma lookup_fmap_seq {A : Type} (f : nat → A) (n i : nat) :
  i < n → (f <$> seq 0 n) !! i = Some (f i).
Proof.
  intros Hi. rewrite list_lookup_fmap, lookup_seq_lt by done. done.
Qed.

Section EngineFacts.
Context {num : Type} `{!Number num}.
Implicit Types (points : list (Point num)) (i k n : nat).

Lemma generateFunctionPoints_closed func minX maxX steps :
  generateFunctionPoints func minX maxX steps =
  (λ i, let xv := (minX + lit i * ((maxX - minX) / (lit steps - lit 1)))%num in
        {| x := xv; y := func xv |}) <$> seq 0 steps.
Proof. unfold generateFunctionPoints. by rewrite foldl_push. Qed.

Lemma calculateDerivative_closed points :
  2 ≤ length points →
  calculateDerivative points =
  (λ i, {| x := x (points !!! i); y := slope points i |}) <$> seq 0 (length points).
Proof.
  intros Hn. unfold calculateDerivative.
  rewrite bool_decide_eq_false_2 by lia. by rewrite foldl_push.
Qed.

Lemma calculateDerivative_short points :
  length points < 2 → calculateDerivative points = [].
Proof.
  intros Hn. unfold calculateDerivative. by rewrite bool_decide_eq_true_2.
Qed.

(** The state of the integration loop after [k] turns. *)
Lemma integral_loop points C k :
  foldl (integral_step points)
        ([ {| x := x (points !!! 0); y := C |} ], C) (seq 1 k) =
  ((λ i, {| x := x (points !!! i); y := running_total points C i |})
     <$> seq 0 (S k),
   running_total points C k).
Proof.
  induction k as [|k IH]; [done|].
  rewrite seq_S, foldl_snoc, IH. unfold integral_step.
  replace (1 + k - 1) with k by lia.
  rewrite (seq_S (S k)), fmap_app. reflexivity.
Qed.

Lemma calculateIntegral_closed points C :
  calculateIntegral points C =
  (λ i, {| x := x (points !!! i); y := running_total points C i |})
    <$> seq 0 (length points).
Proof.
  unfold calculateIntegral. case_bool_decide as Hn.
  - destruct points; [done | simpl in Hn; lia].
  - rewrite integral_loop. cbn [fst].
    replace (S (length points - 1)) with (length points) by lia.
    reflexivity.
Qed.

Lemma length_calculateIntegral points C :
  length (calculateIntegral points C) = length points.
Proof. by rewrite calculateIntegral_closed, length_fmap, length_seq. Qed.

Lemma length_calculateDerivative points :
  2 ≤ length points → length (calculateDerivative points) = length points.
Proof.
  intros Hn. by rewrite calculateDerivative_closed, length_fmap, length_seq.
Qed.

Lemma lookup_calculateIntegral points C i :
  i < length points →
  calculateIntegral points C !!! i =
  {| x := x (points !!! i); y := running_total points C i |}.
Proof.
  intros Hi. apply list_lookup_total_correct.
  rewrite calculateIntegral_closed. by rewrite lookup_fmap_seq.
Qed.

Lemma lookup_calculateDerivative points i :
  2 ≤ length points → i < length points →
  calculateDerivative points !!! i =
  {| x := x (points !!! i); y := slope points i |}.
Proof.
  intros Hn Hi. apply list_lookup_total_correct.
  rewrite calculateDerivative_closed by done. by rewrite lookup_fmap_seq.
Qed.

(** The x-values of a list built index by index from [points]. *)
Lemma x_values_fmap_seq points (f : nat → num) :
  x <$> ((λ i, {| x := x (points !!! i); y := f i |}) <$> seq 0 (length points))
  = x <$> points.
Proof.
  apply list_eq. intros i.
  rewrite !list_lookup_fmap.
  destruct (decide (i < length points)) as [Hi|Hi].
  - rewrite lookup_seq_lt by done. simpl.
    by rewrite (list_lookup_lookup_total_lt points i).
  - rewrite lookup_seq_ge, (lookup_ge_None_2 points) by lia. done.
Qed.

Lemma x_values_calculateIntegral points C :
  x <$> calculateIntegral points C = x <$> points.
Proof. rewrite calculateIntegral_closed. apply x_values_fmap_seq. Qed.

Lemma x_values_calculateDerivative points :
  2 ≤ length points → x <$> calculateDerivative points = x <$> points.
Proof.
  intros Hn. rewrite calculateDerivative_closed by done.
  apply x_values_fmap_seq.
Qed.

End EngineFacts.

(** ** The run-time layer on well-typed arrays *)

Section RuntimeFacts.
Context {num : Type} `{!Number num, !NotANumber num}.
Implicit Types (points : list (Point num)) (a : JsArray num) (i k n : nat).

Lemma length_of_points points : length (of_points points) = length points.
Proof. unfold of_points. by rewrite length_fmap. Qed.

Lemma of_points_app points1 points2 :
  of_points (points1 ++ points2) = of_points points1 ++ of_points points2.
Proof. unfold of_points. by rewrite fmap_app. Qed.

Lemma element_of_points points i :
  Runtime.element (of_points points) i = of_point <$> points !! i.
Proof.
  unfold Runtime.element, of_points. rewrite list_lookup_fmap.
  by destruct (points !! i).
Qed.

Lemma object_of_points points i :
  i < length points →
  Runtime.object_of (Runtime.element (of_points points) i)
  = Normal (of_point (points !!! i)).
Proof.
  intros Hi. rewrite element_of_points.
  by rewrite (list_lookup_lookup_total_lt points i).
Qed.

(** On a well-typed array of at least two points every read of the slope
    computation finds its element. *)
Lemma runtime_slope_typed points i :
  2 ≤ length points → i < length points →
  Runtime.slope (of_points points) i = Normal (slope points i).
Proof.
  intros Hn Hi. unfold Runtime.slope, slope.
  rewrite length_of_points.
  repeat case_bool_decide; rewrite !object_of_points by lia; done.
Qed.

Lemma runtime_derivative_step points (acc : list (Point num)) i :
  2 ≤ length points → i < length points →
  Runtime.derivative_step (of_points points) (Normal (of_points acc)) i
  = Normal (of_points (acc ++ [ {| x := x (points !!! i); y := slope points i |} ])).
Proof.
  intros Hn Hi. unfold Runtime.derivative_step. simpl.
  rewrite runtime_slope_typed, object_of_points by done. simpl.
  by rewrite of_points_app.
Qed.

Lemma runtime_derivative_loop points (l : list nat) (acc : list (Point num)) :
  2 ≤ length points → Forall (λ i, i < length points) l →
  foldl (Runtime.derivative_step (of_points points)) (Normal (of_points acc)) l
  = Normal (of_points
      (acc ++ ((λ i, {| x := x (points !!! i); y := slope points i |}) <$> l))).
Proof.
  intros Hn Hl. revert acc.
  induction Hl as [|i l Hi Hl IH]; intros acc; cbn [foldl fmap list_fmap].
  - by rewrite app_nil_r.
  - rewrite runtime_derivative_step, IH by done.
    by rewrite <- app_assoc.
Qed.

Lemma Forall_seq_lt (j n : nat) : Forall (λ i, i < j + n) (seq j n).
Proof.
  apply Forall_forall. intros i Hi.
  apply list_elem_of_lookup in Hi as [k Hk].
  apply lookup_seq in Hk. lia.
Qed.

(** The engines never raise on a well-typed array, and return what the typed
    reading of the source returns. *)
Lemma runtime_calculateDerivative_typed points :
  Runtime.calculateDerivative (of_points points)
  = Normal (of_points (calculateDerivative points)).
Proof.
  unfold Runtime.calculateDerivative. rewrite length_of_points.
  case_bool_decide as Hn.
  - by rewrite calculateDerivative_short.
  - change (mret []) with (Normal (of_points (@nil (Point num)))).
    rewrite runtime_derivative_loop; [|lia|apply (Forall_seq_lt 0)].
    rewrite calculateDerivative_closed by lia. done.
Qed.

Lemma runtime_integral_loop points C k :
  k < length points →
  foldl (Runtime.integral_step (of_points points))
        (Normal (of_points [ {| x := x (points !!! 0); y := C |} ], C))
        (seq 1 k)
  = Normal
      (of_points (foldl (integral_step points)
                        ([ {| x := x (points !!! 0); y := C |} ], C)
                        (seq 1 k)).1,
       (foldl (integral_step points)
              ([ {| x := x (points !!! 0); y := C |} ], C) (seq 1 k)).2).
Proof.
  induction k as [|k IH]; intros Hk; [done|].
  rewrite !seq_S, !foldl_snoc, IH by lia.
  destruct (foldl (integral_step points) _ (seq 1 k)) as [integral acc].
  unfold Runtime.integral_step, integral_step. simpl.
  rewrite !object_of_points by lia. simpl.
  by rewrite of_points_app.
Qed.

Lemma runtime_calculateIntegral_typed points C :
  Runtime.calculateIntegral (of_points points) C
  = Normal (of_points (calculateIntegral points C)).
Proof.
  unfold Runtime.calculateIntegral, calculateIntegral.
  rewrite length_of_points. case_bool_decide as Hn; [done|].
  rewrite object_of_points by lia. simpl.
  change ([Some {| prop_x := Num (x (points !!! 0)); prop_y := Num C |}])
    with (of_points [ {| x := x (points !!! 0); y := C |} ]).
  rewrite runtime_integral_loop by lia. done.
Qed.

End RuntimeFacts.

(** ** The run-time layer on arrays with holes *)

Section HoleFacts.
Context {num : Type} `{!Number num, !NotANumber num}.
Implicit Types (points : list (Point num)) (a : JsArray num) (i k n : nat).

Lemma foldl_integral_TypeError a (l : list nat) :
  foldl (Runtime.integral_step a) TypeError l = TypeError.
Proof. induction l as [|i l IH]; [done|]. cbn [foldl]. exact IH. Qed.

Lemma foldl_derivative_TypeError a (l : list nat) :
  foldl (Runtime.derivative_step a) TypeError l = TypeError.
Proof. induction l as [|i l IH]; [done|]. cbn [foldl]. exact IH. Qed.

(** The turn of either loop that reaches a hole raises. *)
Lemma integral_step_hole a st k :
  Runtime.element a k = None → Runtime.integral_step a st k = TypeError.
Proof.
  intros Hk. unfold Runtime.integral_step.
  destruct st as [[integral acc]|]; [|done]. simpl. by rewrite Hk.
Qed.

Lemma derivative_step_hole a st k :
  Runtime.element a k = None → Runtime.derivative_step a st k = TypeError.
Proof.
  intros Hk. unfold Runtime.derivative_step.
  destruct st as [derivative|]; [|done]. simpl.
  destruct (Runtime.slope a k); [|done]. simpl. by rewrite Hk.
Qed.

Lemma seq_split (j n k : nat) :
  k < n → seq j n = seq j k ++ (j + k) :: seq (S (j + k)) (n - S k).
Proof.
  intros Hk. replace n with (k + S (n - S k)) at 1 by lia.
  by rewrite seq_app.
Qed.

Lemma runtime_calculateIntegral_hole a C k :
  k < length a → Runtime.element a k = None →
  Runtime.calculateIntegral a C = TypeError.
Proof.
  intros Hk Hole. unfold Runtime.calculateIntegral.
  rewrite bool_decide_eq_false_2 by lia.
  destruct k as [|k].
  - by rewrite Hole.
  - destruct (Runtime.object_of (Runtime.element a 0)) as [first|]; [|done].
    simpl. rewrite (seq_split 1 (length a - 1) k) by lia.
    rewrite foldl_app. cbn [foldl].
    rewrite integral_step_hole by done.
    by rewrite foldl_integral_TypeError.
Qed.

Lemma runtime_calculateDerivative_hole a k :
  2 ≤ length a → k < length a → Runtime.element a k = None →
  Runtime.calculateDerivative a = TypeError.
Proof.
  intros Hn Hk Hole. unfold Runtime.calculateDerivative.
  rewrite bool_decide_eq_false_2 by lia.
  rewrite (seq_split 0 (length a) k) by lia.
  rewrite foldl_app. cbn [foldl].
  rewrite derivative_step_hole by done.
  by rewrite foldl_derivative_TypeError.
Qed.

(** Without holes no read raises, whatever the objects hold. *)
Lemma object_of_dense a i :
  Forall is_Some a → i < length a →
  ∃ o, Runtime.object_of (Runtime.element a i) = Normal o.
Proof.
  intros Ha Hi. unfold Runtime.element.
  destruct (lookup_lt_is_Some_2 a i Hi) as [e He]. rewrite He.
  rewrite Forall_lookup in Ha. destruct (Ha i e He) as [o ->].
  by exists o.
Qed.

Lemma runtime_integral_loop_dense a (l : list nat) st :
  Forall is_Some a → Forall (λ i, i < length a) l →
  ∃ st', foldl (Runtime.integral_step a) (Normal st) l = Normal st'.
Proof.
  intros Ha Hl. revert st.
  induction Hl as [|i l Hi Hl IH]; intros [integral acc]; cbn [foldl].
  - by eexists.
  - unfold Runtime.integral_step at 2. simpl.
    destruct (object_of_dense a i Ha Hi) as [p1 ->].
    destruct (object_of_dense a (i - 1) Ha ltac:(lia)) as [p0 ->].
    simpl. apply IH.
Qed.

Lemma runtime_calculateIntegral_dense a C :
  Forall is_Some a → ∃ r, Runtime.calculateIntegral a C = Normal r.
Proof.
  intros Ha. unfold Runtime.calculateIntegral.
  case_bool_decide as Hn; [by eexists|].
  destruct (object_of_dense a 0 Ha ltac:(lia)) as [first ->]. simpl.
  edestruct (runtime_integral_loop_dense a (seq 1 (length a - 1))) as [st ->];
    [done| |by eexists].
  eapply Forall_impl; [apply (Forall_seq_lt 1 (length a - 1))|].
  simpl. lia.
Qed.

Lemma runtime_slope_dense a i :
  Forall is_Some a → 2 ≤ length a → i < length a →
  ∃ s, Runtime.slope a i = Normal s.
Proof.
  intros Ha Hn Hi. unfold Runtime.slope.
  repeat case_bool_decide.
  - destruct (object_of_dense a (i + 1) Ha ltac:(lia)) as [p1 ->].
    destruct (object_of_dense a i Ha Hi) as [p0 ->]. by eexists.
  - destruct (object_of_dense a i Ha Hi) as [p1 ->].
    destruct (object_of_dense a (i - 1) Ha ltac:(lia)) as [p0 ->]. by eexists.
  - destruct (object_of_dense a (i + 1) Ha ltac:(lia)) as [p1 ->].
    destruct (object_of_dense a (i - 1) Ha ltac:(lia)) as [p0 ->]. by eexists.
Qed.

Lemma runtime_derivative_loop_dense a (l : list nat) derivative :
  Forall is_Some a → 2 ≤ length a → Forall (λ i, i < length a) l →
  ∃ r, foldl (Runtime.derivative_step a) (Normal derivative) l = Normal r.
Proof.
  intros Ha Hn Hl. revert derivative.
  induction Hl as [|i l Hi Hl IH]; intros derivative; cbn [foldl].
  - by eexists.
  - unfold Runtime.derivative_step at 2. simpl.
    destruct (runtime_slope_dense a i Ha Hn Hi) as [s ->].
    destruct (object_of_dense a i Ha Hi) as [p ->].
    simpl. apply IH.
Qed.

Lemma runtime_calculateDerivative_dense a :
  Forall is_Some a → ∃ r, Runtime.calculateDerivative a = Normal r.
Proof.
  intros Ha. unfold Runtime.calculateDerivative.
  case_bool_decide as Hn; [by eexists|].
  apply runtime_derivative_loop_dense; [done|lia|apply (Forall_seq_lt 0)].
Qed.

End HoleFacts.

(** ** The drag handlers *)

Section HandlerFacts.
Context {num : Type} `{!Number num, !NotANumber num}.
Implicit Types (points : list (Point num)) (a : JsArray num) (i k n : nat).

(** The array after [a[index] = { ...a[index], y: newY }]. *)
Local Abbreviation edited a index newY :=
  (Runtime.assign a index
     (Runtime.spread_with_y (Runtime.element_at a index) newY)).

(** The constant of integration [functionPoints[0]?.y || 0]. *)
Local Abbreviation anchor functionPoints :=
  (Runtime.or_number
     (Runtime.optional_y (Runtime.element_at functionPoints 0)) (lit 0)).

Lemma edited_in_range points i (newY : num) :
  i < length points →
  edited (of_points points) (Z.of_nat i) newY
  = of_points (alter (λ p, with_y p newY) i points).
Proof.
  intros Hi. unfold Runtime.assign, Runtime.element_at.
  rewrite (bool_decide_eq_false_2 (Z.of_nat i < 0)%Z) by lia.
  rewrite (bool_decide_eq_true_2 (0 ≤ Z.of_nat i)%Z) by lia.
  rewrite Nat2Z.id, length_of_points, bool_decide_eq_true_2 by done.
  rewrite element_of_points, (list_lookup_lookup_total_lt points i) by done.
  simpl. unfold of_points. apply list_eq. intros j.
  rewrite list_lookup_insert, !list_lookup_fmap, list_lookup_alter.
  rewrite length_fmap.
  destruct (decide (i = j)) as [<-|Hne].
  - rewrite decide_True by done.
    by rewrite (list_lookup_lookup_total_lt points i).
  - rewrite decide_False by tauto. done.
Qed.

Lemma edited_negative a (index : Z) (newY : num) :
  (index < 0)%Z → edited a index newY = a.
Proof.
  intros Hi. unfold Runtime.assign. by rewrite bool_decide_eq_true_2.
Qed.

Lemma edited_beyond a (index : Z) (newY : num) :
  (Z.of_nat (length a) ≤ index)%Z → (index ≤ Runtime.MAX_ARRAY_INDEX)%Z →
  edited a index newY
  = a ++ replicate (Z.to_nat index - length a) None
      ++ [ Some {| prop_x := Undefined; prop_y := Num newY |} ].
Proof.
  intros Hi Hmax. unfold Runtime.assign, Runtime.element_at, Runtime.element.
  rewrite (bool_decide_eq_false_2 (index < 0)%Z) by lia.
  rewrite (bool_decide_eq_true_2 (0 ≤ index)%Z) by lia.
  rewrite (bool_decide_eq_false_2 (Z.to_nat index < length a)) by lia.
  rewrite (bool_decide_eq_true_2 (index ≤ Runtime.MAX_ARRAY_INDEX)%Z) by done.
  by rewrite (lookup_ge_None_2 a) by lia.
Qed.

(** Beyond the largest array index the write does not reach the elements. *)
Lemma edited_not_an_index a (index : Z) (newY : num) :
  (Z.of_nat (length a) ≤ index)%Z → (Runtime.MAX_ARRAY_INDEX < index)%Z →
  edited a index newY = a.
Proof.
  intros Hi Hmax. unfold Runtime.assign.
  rewrite (bool_decide_eq_false_2 (index < 0)%Z) by lia.
  rewrite (bool_decide_eq_false_2 (Z.to_nat index < length a)) by lia.
  by rewrite (bool_decide_eq_false_2 (index ≤ Runtime.MAX_ARRAY_INDEX)%Z) by lia.
Qed.

(** Beyond the end the array grows; exactly at the end no hole appears. *)
Lemma edited_at_length_dense points (newY : num) :
  (Z.of_nat (length points) ≤ Runtime.MAX_ARRAY_INDEX)%Z →
  Forall is_Some (edited (of_points points) (Z.of_nat (length points)) newY).
Proof.
  intros Hmax. rewrite edited_beyond by (rewrite ?length_of_points; lia).
  rewrite length_of_points, Nat2Z.id, Nat.sub_diag. simpl.
  apply Forall_app. split.
  - unfold of_points. apply Forall_fmap, Forall_true. by eexists.
  - repeat constructor. by eexists.
Qed.

Lemma edited_past_length_hole a (index : Z) (newY : num) :
  (Z.of_nat (length a) < index)%Z → (index ≤ Runtime.MAX_ARRAY_INDEX)%Z →
  length a < length (edited a index newY)
  ∧ 2 ≤ length (edited a index newY)
  ∧ Runtime.element (edited a index newY) (length a) = None.
Proof.
  intros Hi Hmax. rewrite edited_beyond by lia.
  rewrite !length_app, length_replicate. simpl.
  split; [lia|]. split; [lia|].
  unfold Runtime.element.
  rewrite lookup_app_r, Nat.sub_diag by done.
  destruct (Z.to_nat index - length a) as [|m] eqn:Hm; [lia|]. done.
Qed.

Lemma anchor_typed points :
  anchor (of_points points)
  = match points with
    | [] => lit 0
    | p :: _ => if truthy (y p) then y p else lit 0
    end.
Proof. by destruct points. Qed.

(** An in-range edit of a well-typed DERIVATIVE: the handler integrates the
    edited sequence from the anchor, and nothing raises. *)
Lemma handleDerivativeDrag_in_range points (functionPoints : JsArray num)
    i (newY : num) :
  i < length points →
  handleDerivativeDrag (of_points points) functionPoints (Z.of_nat i) newY
  = Normal (of_points
      (calculateIntegral (alter (λ p, with_y p newY) i points)
                         (anchor functionPoints))).
Proof.
  intros Hi. unfold handleDerivativeDrag.
  rewrite edited_in_range by done.
  by rewrite runtime_calculateIntegral_typed.
Qed.

Lemma handleFunctionDrag_in_range points i (newY : num) :
  i < length points →
  handleFunctionDrag (of_points points) (Z.of_nat i) newY
  = Normal (of_points (alter (λ p, with_y p newY) i points)).
Proof.
  intros Hi. unfold handleFunctionDrag. by rewrite edited_in_range.
Qed.

Lemma x_values_alter_with_y points i (newY : num) :
  x <$> alter (λ p, with_y p newY) i points = x <$> points.
Proof.
  rewrite (list_fmap_alter x _ id).
  - apply list_eq. intros j. rewrite list_lookup_alter.
    destruct (decide (i = j)) as [->|]; [|done].
    by destruct ((x <$> points) !! j).
  - by apply Forall_true.
Qed.

End HandlerFacts.

(** ** Exact arithmetic *)

Section ExactFacts.
Implicit Types (points : list (Point Qc)) (i j k n : nat) (a b c : Qc).

Lemma exact_ltb_lt a b : Exact.ltb a b = true ↔ (a < b)%Qc.
Proof.
  unfold Exact.ltb. rewrite Qclt_alt.
  destruct (a ?= b)%Qc; split; congruence.
Qed.

Lemma exact_lit_0 : (lit 0 : Qc) = 0%Qc.
Proof. apply Qc_is_canon. reflexivity. Qed.

Lemma exact_lit_2 : (lit 2 : Qc) = (1 + 1)%Qc.
Proof. apply Qc_is_canon. reflexivity. Qed.

(** [||] keeps every rational except [0], which it replaces by [0]. *)
Lemma exact_truthy_or_zero a : truthy a = true ∨ a = lit 0.
Proof.
  rewrite exact_lit_0. change (truthy a) with (Exact.to_boolean a).
  unfold Exact.to_boolean.
  destruct (Qc_eq_bool a 0) eqn:E; [right|by left].
  by apply Qc_eq_bool_correct.
Qed.

Lemma increasing_head_lt (l : list Qc) a k b :
  increasing (a :: l) = true → l !! k = Some b → (a < b)%Qc.
Proof.
  revert a k. induction l as [|c l IH]; intros a k Hinc Hk; [done|].
  cbn [increasing] in Hinc. apply andb_prop in Hinc as [Hac Hrest].
  apply exact_ltb_lt in Hac.
  destruct k as [|k]; simpl in Hk.
  - by injection Hk as <-.
  - eapply Qclt_trans; [exact Hac|]. by eapply IH.
Qed.

Lemma increasing_tail (l : list Qc) a :
  increasing (a :: l) = true → increasing l = true.
Proof.
  destruct l as [|c l]; [done|]. cbn [increasing].
  intros H. by apply andb_prop in H as [_ H].
Qed.

Lemma increasing_lookup_lt (l : list Qc) i j a b :
  increasing l = true → i < j → l !! i = Some a → l !! j = Some b →
  (a < b)%Qc.
Proof.
  revert i j. induction l as [|c l IH]; intros i j Hinc Hij Hi Hj; [done|].
  destruct j as [|j]; [lia|]. simpl in Hj.
  destruct i as [|i]; simpl in Hi.
  - injection Hi as <-. by eapply increasing_head_lt.
  - eapply (IH i j); [by eapply increasing_tail|lia|done..].
Qed.

(** Under the invariant two different samples never share an x-value, so no
    finite difference divides by zero. *)
Lemma strictly_increasing_apart points i j :
  strictly_increasing points → i < j → j < length points →
  (x (points !!! j) - x (points !!! i) ≠ 0)%Qc.
Proof.
  intros Hinc Hij Hj.
  assert (x (points !!! i) < x (points !!! j))%Qc as Hlt.
  { eapply (increasing_lookup_lt (x <$> points) i j); [done..| |].
    - rewrite list_lookup_fmap.
      by rewrite (list_lookup_lookup_total_lt points i) by lia.
    - rewrite list_lookup_fmap.
      by rewrite (list_lookup_lookup_total_lt points j) by lia. }
  intros Heq.
  replace (x (points !!! j)) with (x (points !!! j) - x (points !!! i)
                                   + x (points !!! i))%Qc in Hlt by ring.
  rewrite Heq, Qcplus_0_l in Hlt.
  by apply Qclt_not_eq in Hlt.
Qed.

(** Every finite difference of samples of a line is the line's slope. *)
Lemma slope_of_line points a b i :
  strictly_increasing points → 2 ≤ length points → i < length points →
  (∀ k, k < length points →
        y (points !!! k) = (a * x (points !!! k) + b)%Qc) →
  slope points i = a.
Proof.
  intros Hinc Hn Hi Hline. unfold slope.
  repeat case_bool_decide; subst; simpl;
    rewrite !Hline by lia.
  - pose proof (strictly_increasing_apart points 0 1 Hinc) as Hne. simpl in Hne.
    field. apply Hne; lia.
  - pose proof (strictly_increasing_apart points (length points - 1 - 1)
                  (length points - 1) Hinc) as Hne.
    field. apply Hne; lia.
  - pose proof (strictly_increasing_apart points (i - 1) (i + 1) Hinc) as Hne.
    field. apply Hne; lia.
Qed.

(** The trapezoids under a constant slope [a] add up to the line again. *)
Lemma running_total_of_constant_slope points (derivative : list (Point Qc)) a b i :
  length derivative = length points → i < length points →
  (∀ k, k < length points →
        derivative !!! k = {| x := x (points !!! k); y := a |}) →
  (∀ k, k < length points →
        y (points !!! k) = (a * x (points !!! k) + b)%Qc) →
  running_total derivative (y (points !!! 0)) i = y (points !!! i).
Proof.
  intros Hlen Hi Hd Hline. induction i as [|i IH]; [done|].
  cbn [running_total]. rewrite IH, !Hd, !Hline, exact_lit_2 by lia.
  simpl. field. discriminate.
Qed.

(** Moving the constant of integration moves every running total with it. *)
Lemma running_total_shift points c i :
  running_total points c i = (running_total points (lit 0) i + c)%Qc.
Proof.
  induction i as [|i IH]; cbn [running_total].
  - rewrite exact_lit_0. ring.
  - rewrite IH. simpl. ring.
Qed.

End ExactFacts.

(** * The claims *)

Section EngineClaims.
Context {num : Type} `{!Number num}.
Implicit Types (points : list (Point num)) (i k n : nat).

(** C1.  For a sequence of [n >= 2] points [calculateDerivative] returns [n]
    points with the input's x-values, whose first y-value is the forward
    difference, whose last y-value is the backward difference and whose
    interior y-values are central differences; for [n < 2] it returns the empty
    sequence.  This holds in every arithmetic and needs no assumption on the
    order of the x-values. *)
Theorem calculateDerivative_finite_differences points :
  let n := length points in
  let derivative := calculateDerivative points in
  (2 ≤ n →
     length derivative = n
     ∧ (∀ i, i < n → x (derivative !!! i) = x (points !!! i))
     ∧ y (derivative !!! 0)
       = ((y (points !!! 1) - y (points !!! 0))
          / (x (points !!! 1) - x (points !!! 0)))%num
     ∧ y (derivative !!! (n - 1)%nat)
       = ((y (points !!! (n - 1)%nat) - y (points !!! (n - 2)%nat))
          / (x (points !!! (n - 1)%nat) - x (points !!! (n - 2)%nat)))%num
     ∧ (∀ i, 0 < i < n - 1 →
          y (derivative !!! i)
          = ((y (points !!! (i + 1)%nat) - y (points !!! (i - 1)%nat))
             / (x (points !!! (i + 1)%nat) - x (points !!! (i - 1)%nat)))%num))
  ∧ (n < 2 → derivative = []).
Proof.
  intros n derivative. subst n derivative. split.
  - intros Hn. split; [by apply length_calculateDerivative|].
    split; [|split; [|split]].
    + intros i Hi. by rewrite lookup_calculateDerivative.
    + rewrite lookup_calculateDerivative by lia. reflexivity.
    + rewrite lookup_calculateDerivative by lia. simpl. unfold slope.
      rewrite bool_decide_eq_false_2, bool_decide_eq_true_2 by lia.
      replace (length points - 1 - 1) with (length points - 2) by lia.
      reflexivity.
    + intros i Hi. rewrite lookup_calculateDerivative by lia. simpl.
      unfold slope. by rewrite !bool_decide_eq_false_2 by lia.
  - apply calculateDerivative_short.
Qed.

(** C2.  For a sequence of [n >= 1] points and a constant [C],
    [calculateIntegral] returns [n] points with the input's x-values, whose
    first y-value is [C] and whose [i]-th y-value, [1 <= i <= n-1], is the
    previous output y-value plus the trapezoid
    [((y[i] + y[i-1]) / 2) * (x[i] - x[i-1])]; for the empty input it returns
    the empty sequence. *)
Theorem calculateIntegral_trapezoids points (C : num) :
  let n := length points in
  let integral := calculateIntegral points C in
  (1 ≤ n →
     length integral = n
     ∧ (∀ i, i < n → x (integral !!! i) = x (points !!! i))
     ∧ y (integral !!! 0) = C
     ∧ (∀ i, 1 ≤ i ≤ n - 1 →
          y (integral !!! i)
          = (y (integral !!! (i - 1)%nat)
             + ((y (points !!! i) + y (points !!! (i - 1)%nat)) / lit 2)
               * (x (points !!! i) - x (points !!! (i - 1)%nat)))%num))
  ∧ (points = [] → integral = []).
Proof.
  intros n integral. subst n integral. split.
  - intros Hn. split; [apply length_calculateIntegral|].
    split; [|split].
    + intros i Hi. by rewrite lookup_calculateIntegral.
    + by rewrite lookup_calculateIntegral by lia.
    + intros i Hi. rewrite !lookup_calculateIntegral by lia.
      destruct i as [|k]; [lia|].
      replace (S k - 1) with k by lia. reflexivity.
  - by intros ->.
Qed.

(** C8.  Sampling [func] over [[minX, maxX]] with a sample count [steps]
    produces exactly [steps] points, the [i]-th being [(x_i, func x_i)] with
    [x_i = minX + i * ((maxX - minX) / (steps - 1))]. *)
Theorem generateFunctionPoints_uniform (func : num → num) (minX maxX : num)
    (steps : nat) :
  let points := generateFunctionPoints func minX maxX steps in
  length points = steps
  ∧ ∀ i, i < steps →
      let x_i := (minX + lit i * ((maxX - minX) / (lit steps - lit 1)))%num in
      points !! i = Some {| x := x_i; y := func x_i |}.
Proof.
  intros points. subst points. rewrite generateFunctionPoints_closed. split.
  - by rewrite length_fmap, length_seq.
  - intros i Hi. by rewrite lookup_fmap_seq.
Qed.

(** The x-values survive differentiation followed by integration, whatever the
    constant. *)
Lemma x_values_roundtrip points (C : num) :
  2 ≤ length points →
  x <$> calculateIntegral (calculateDerivative points) C = x <$> points.
Proof.
  intros Hn. by rewrite x_values_calculateIntegral, x_values_calculateDerivative.
Qed.

(** A list with the x-values of an increasing one is increasing. *)
Lemma strictly_increasing_same_x points1 points2 :
  x <$> points1 = x <$> points2 →
  strictly_increasing points2 → strictly_increasing points1.
Proof. unfold strictly_increasing. by intros ->. Qed.

End EngineClaims.

Section CoordinatorClaims.
Context {num : Type} `{!Number num, !NotANumber num}.
Implicit Types (points functionPoints derivativePoints : list (Point num)).
Implicit Types (i k n : nat).

(** C7.  An in-range edit of PRIMARY changes the point at the edited index
    only, and only its y: the new sequence has the old length, every other
    index holds the old point, and the edited index holds the old x with the
    new y. *)
Theorem handleFunctionDrag_frame points (index : nat) (newY : num) :
  index < length points →
  ∃ next,
    handleFunctionDrag (of_points points) (Z.of_nat index) newY
    = Normal (of_points next)
    ∧ length next = length points
    ∧ (∀ j, j ≠ index → next !! j = points !! j)
    ∧ ∃ p, points !! index = Some p
           ∧ next !! index = Some {| x := x p; y := newY |}.
Proof.
  intros Hi. exists (alter (λ p, with_y p newY) index points).
  split; [by apply handleFunctionDrag_in_range|].
  split; [apply length_alter|]. split.
  - intros j Hj. by apply list_lookup_alter_ne.
  - exists (points !!! index).
    rewrite list_lookup_alter_eq.
    by rewrite (list_lookup_lookup_total_lt points index).
Qed.

(** C3, as the code has it.  A derivative edit at an in-range index, made
    while PRIMARY is not empty and its first y-value is one that [||] keeps
    or is zero itself, yields a new PRIMARY of the DERIVATIVE's length whose
    first y-value is the first y-value PRIMARY had before the edit. *)
Theorem handleDerivativeDrag_anchored functionPoints derivativePoints
    (index : nat) (newY : num) :
  functionPoints ≠ [] →
  index < length derivativePoints →
  (truthy (y (functionPoints !!! 0)) = true
   ∨ y (functionPoints !!! 0) = lit 0) →
  ∃ reconstructed,
    handleDerivativeDrag (of_points derivativePoints) (of_points functionPoints)
                         (Z.of_nat index) newY
    = Normal (of_points reconstructed)
    ∧ reconstructed
      = calculateIntegral (alter (λ p, with_y p newY) index derivativePoints)
                          (y (functionPoints !!! 0))
    ∧ length reconstructed = length derivativePoints
    ∧ y (reconstructed !!! 0) = y (functionPoints !!! 0).
Proof.
  intros Hne Hi Hy. eexists. split; [|split; [reflexivity|]].
  - rewrite handleDerivativeDrag_in_range by done.
    rewrite anchor_typed. destruct functionPoints as [|p rest]; [done|].
    change ((p :: rest) !!! 0) with p in *.
    destruct Hy as [->| ->]; [done|]. by destruct (truthy (lit 0)).
  - rewrite length_calculateIntegral, length_alter. split; [done|].
    rewrite lookup_calculateIntegral; [done|]. rewrite length_alter. lia.
Qed.

(** C10.  A derivative edit made while PRIMARY is empty, or while its first
    y-value is one that [||] rejects (NaN, see [float_nan_falsy]), does not
    fail: the constant of integration is [0] and the new PRIMARY is the
    integral of the edited derivative sequence from [0]. *)
Theorem handleDerivativeDrag_fallback functionPoints derivativePoints
    (index : nat) (newY : num) :
  index < length derivativePoints →
  (functionPoints = [] ∨ truthy (y (functionPoints !!! 0)) = false) →
  handleDerivativeDrag (of_points derivativePoints) (of_points functionPoints)
                       (Z.of_nat index) newY
  = Normal (of_points
      (calculateIntegral (alter (λ p, with_y p newY) index derivativePoints)
                         (lit 0))).
Proof.
  intros Hi Hf. rewrite handleDerivativeDrag_in_range by done.
  rewrite anchor_typed. destruct Hf as [->|Hf]; [done|].
  destruct functionPoints as [|p rest]; [done|].
  change ((p :: rest) !!! 0) with p in Hf. by rewrite Hf.
Qed.

(** C6, as the code has it.  No handler looks at the index; [index] is any
    integer outside [[0, length-1]], and [MAX_ARRAY_INDEX] is the largest
    array index, [2^32 - 2].

    The PRIMARY handler never signals an error.  For a negative index and for
    an index beyond [MAX_ARRAY_INDEX] it leaves the elements as they were.
    For an index from the length up to [MAX_ARRAY_INDEX] the array grows to
    [index + 1] elements, the last one a point without [x] and the ones in
    between holes.

    The DERIVATIVE and ANTIDERIVATIVE handlers run their engine on the array
    edited in the same way.  For a negative index and for an index beyond
    [MAX_ARRAY_INDEX] they return what the unedited sequence gives.  For an
    index equal to the length (and at most [MAX_ARRAY_INDEX]) they return
    normally.  Only an index above the length and at most [MAX_ARRAY_INDEX]
    ends in a [TypeError], raised when the engine reads a hole. *)
Theorem out_of_range_edit_unchecked points (functionPoints : JsArray num)
    (index : Z) (newY : num) :
  (index < 0 ∨ Z.of_nat (length points) ≤ index)%Z →
  (∃ next,
     handleFunctionDrag (of_points points) index newY = Normal next
     ∧ ((index < 0 ∨ Runtime.MAX_ARRAY_INDEX < index)%Z →
        next = of_points points)
     ∧ ((Z.of_nat (length points) ≤ index ≤ Runtime.MAX_ARRAY_INDEX)%Z →
        length next = S (Z.to_nat index)
        ∧ next = of_points points
                 ++ replicate (Z.to_nat index - length points) None
                 ++ [ Some {| prop_x := Undefined; prop_y := Num newY |} ]))
  ∧ ((index < 0 ∨ Runtime.MAX_ARRAY_INDEX < index)%Z →
     handleDerivativeDrag (of_points points) functionPoints index newY
     = Normal (of_points
         (calculateIntegral points
            (Runtime.or_number
               (Runtime.optional_y (Runtime.element_at functionPoints 0))
               (lit 0))))
     ∧ handleIntegralDrag (of_points points) index newY
       = Normal (of_points (calculateDerivative points)))
  ∧ ((index = Z.of_nat (length points) ∧ index ≤ Runtime.MAX_ARRAY_INDEX)%Z →
     (∃ r, handleDerivativeDrag (of_points points) functionPoints index newY
           = Normal r)
     ∧ (∃ r, handleIntegralDrag (of_points points) index newY = Normal r))
  ∧ ((Z.of_nat (length points) < index ≤ Runtime.MAX_ARRAY_INDEX)%Z →
     handleDerivativeDrag (of_points points) functionPoints index newY
     = TypeError
     ∧ handleIntegralDrag (of_points points) index newY = TypeError).
Proof.
  intros Hout.
  assert (Hsame : (index < 0 ∨ Runtime.MAX_ARRAY_INDEX < index)%Z →
            Runtime.assign (of_points points) index
              (Runtime.spread_with_y
                 (Runtime.element_at (of_points points) index) newY)
            = of_points points).
  { intros [Hneg|Hbig]; [by apply edited_negative|].
    apply edited_not_an_index; [|done].
    rewrite length_of_points. unfold Runtime.MAX_ARRAY_INDEX in Hbig. lia. }
  split; [|split; [|split]].
  - eexists. split; [reflexivity|]. split; [exact Hsame|].
    intros [Hge Hmax].
    rewrite edited_beyond by (rewrite ?length_of_points; lia).
    split; [|by rewrite length_of_points].
    rewrite !length_app, length_replicate, !length_of_points. simpl. lia.
  - intros Hprop. unfold handleDerivativeDrag, handleIntegralDrag.
    rewrite !(Hsame Hprop).
    by rewrite runtime_calculateIntegral_typed, runtime_calculateDerivative_typed.
  - intros [-> Hmax]. unfold handleDerivativeDrag, handleIntegralDrag. split.
    + edestruct (runtime_calculateIntegral_dense (num:=num)) as [r ->];
        [by apply edited_at_length_dense|]. by eexists.
    + edestruct (runtime_calculateDerivative_dense (num:=num)) as [r ->];
        [by apply edited_at_length_dense|]. by eexists.
  - intros [Hgt Hmax]. unfold handleDerivativeDrag, handleIntegralDrag.
    destruct (edited_past_length_hole (of_points points) index newY)
      as (Hlt & Hlen & Hole); [by rewrite length_of_points|done|].
    by rewrite (runtime_calculateIntegral_hole _ _ _ Hlt Hole),
               (runtime_calculateDerivative_hole _ _ Hlen Hlt Hole).
Qed.

(** C5, as the code has it.  On a sequence with strictly increasing x-values,
    [calculateIntegral] returns the input's x-values in the input's order, and
    so does [calculateDerivative] when there are at least two points (with
    fewer it returns the empty sequence); an in-range y-edit of PRIMARY leaves
    every x-value as it was.  So every sequence produced has strictly
    increasing x-values again. *)
Theorem transformations_keep_increasing_x points (C : num) :
  strictly_increasing points →
  (2 ≤ length points → x <$> calculateDerivative points = x <$> points)
  ∧ (length points < 2 → calculateDerivative points = [])
  ∧ x <$> calculateIntegral points C = x <$> points
  ∧ (∀ (index : nat) (newY : num), index < length points →
       ∃ next,
         handleFunctionDrag (of_points points) (Z.of_nat index) newY
         = Normal (of_points next)
         ∧ x <$> next = x <$> points
         ∧ strictly_increasing next)
  ∧ strictly_increasing (calculateDerivative points)
  ∧ strictly_increasing (calculateIntegral points C).
Proof.
  intros Hinc.
  split; [apply x_values_calculateDerivative|].
  split; [apply calculateDerivative_short|].
  split; [apply x_values_calculateIntegral|].
  split; [|split].
  - intros index newY Hi. eexists.
    split; [by apply handleFunctionDrag_in_range|].
    split; [apply x_values_alter_with_y|].
    eapply strictly_increasing_same_x; [apply x_values_alter_with_y|done].
  - destruct (decide (2 ≤ length points)) as [Hn|Hn].
    + eapply strictly_increasing_same_x;
        [by apply x_values_calculateDerivative|done].
    + by rewrite calculateDerivative_short by lia.
  - eapply strictly_increasing_same_x; [apply x_values_calculateIntegral|done].
Qed.

End CoordinatorClaims.

Section ExactClaims.
Implicit Types (seq points : list (Point Qc)) (i k n : nat) (a b : Qc).

Lemma line_at seq a b k :
  Forall (λ p, y p = (a * x p + b)%Qc) seq → k < length seq →
  y (seq !!! k) = (a * x (seq !!! k) + b)%Qc.
Proof.
  intros Hline Hk. rewrite Forall_lookup in Hline.
  apply (Hline k). by apply list_lookup_lookup_total_lt.
Qed.

(** On samples of a line the derivative is the slope of the line at every
    index. *)
Lemma calculateDerivative_of_line seq a b k :
  strictly_increasing seq → 2 ≤ length seq → k < length seq →
  Forall (λ p, y p = (a * x p + b)%Qc) seq →
  calculateDerivative seq !!! k = {| x := x (seq !!! k); y := a |}.
Proof.
  intros Hinc Hn Hk Hline. rewrite lookup_calculateDerivative by done.
  f_equal. eapply slope_of_line; [done..|].
  intros j Hj. by apply line_at.
Qed.

(** The integral of the derivative of a line, from any constant: the line's
    increments on top of the constant. *)
Lemma roundtrip_of_line seq a b (C : Qc) k :
  strictly_increasing seq → 2 ≤ length seq → k < length seq →
  Forall (λ p, y p = (a * x p + b)%Qc) seq →
  calculateIntegral (calculateDerivative seq) C !!! k
  = {| x := x (seq !!! k);
       y := (y (seq !!! k) - y (seq !!! 0%nat) + C)%Qc |}.
Proof.
  intros Hinc Hn Hk Hline.
  rewrite lookup_calculateIntegral by (by rewrite length_calculateDerivative).
  rewrite (calculateDerivative_of_line seq a b) by done. f_equal.
  rewrite running_total_shift.
  set (r := running_total (calculateDerivative seq) (lit 0) k).
  assert (Hr : (r + y (seq !!! 0%nat))%Qc = y (seq !!! k)).
  { subst r. rewrite <- running_total_shift.
    eapply running_total_of_constant_slope;
      [by apply length_calculateDerivative|done| |].
    - intros j Hj. by eapply calculateDerivative_of_line.
    - intros j Hj. by apply line_at. }
  rewrite <- Hr. simpl. ring.
Qed.

(** C4, as the code has it.  In exact arithmetic, let [seq] have at least two
    points with strictly increasing x-values, sampled from the line
    [y = a*x + b].  Integrating its derivative from the constant [seq[0].y],
    which is [a*x[0] + b], gives [seq] back.  From the constant [b] the result
    is [seq] lowered by [a*x[0]], so it is [seq] if and only if [a*x[0] = 0].
    In addition, in every arithmetic and for every sequence of at least two
    points, [calculateIntegral(calculateDerivative(seq), seq[0].y)] has the
    x-values of [seq]. *)
Theorem linear_roundtrip :
  (∀ (seq : list (Point Qc)) (a b : Qc),
     strictly_increasing seq → 2 ≤ length seq →
     Forall (λ p, y p = (a * x p + b)%Qc) seq →
     calculateIntegral (calculateDerivative seq) (y (seq !!! 0%nat)) = seq
     ∧ (∀ i, i < length seq →
          calculateIntegral (calculateDerivative seq) b !!! i
          = {| x := x (seq !!! i);
               y := (y (seq !!! i) - a * x (seq !!! 0%nat))%Qc |})
     ∧ (calculateIntegral (calculateDerivative seq) b = seq
        ↔ (a * x (seq !!! 0%nat) = 0)%Qc))
  ∧ (∀ (num : Type) (N : Number num) (seq : list (Point num)),
       2 ≤ length seq →
       x <$> calculateIntegral (calculateDerivative seq) (y (seq !!! 0%nat))
       = x <$> seq).
Proof.
  split; [|intros num N seq Hn; by apply x_values_roundtrip].
  intros seq a b Hinc Hn Hline.
  assert (Hback : ∀ C, (C = y (seq !!! 0%nat)) →
            calculateIntegral (calculateDerivative seq) C = seq).
  { intros C ->. apply list_eq_same_length with (length seq).
    - done.
    - by rewrite length_calculateIntegral, length_calculateDerivative.
    - intros i p q Hi Hp Hq.
      apply list_lookup_total_correct in Hp, Hq.
      rewrite (roundtrip_of_line seq a b) in Hp by done.
      subst p q. destruct (seq !!! i) as [xi yi]. simpl. f_equal. ring. }
  assert (Hat : ∀ i, i < length seq →
            calculateIntegral (calculateDerivative seq) b !!! i
            = {| x := x (seq !!! i);
                 y := (y (seq !!! i) - a * x (seq !!! 0%nat))%Qc |}).
  { intros i Hi. rewrite (roundtrip_of_line seq a b) by done. f_equal.
    rewrite (line_at seq a b 0) by (done || lia). ring. }
  split; [by apply Hback|]. split; [exact Hat|]. split.
  - intros Heq. assert (H0 := Hat 0 ltac:(lia)). rewrite Heq in H0.
    apply (f_equal y) in H0. simpl in H0.
    replace (a * x (seq !!! 0%nat))%Qc
      with (y (seq !!! 0%nat) - (y (seq !!! 0%nat) - a * x (seq !!! 0%nat)))%Qc
      by ring.
    rewrite <- H0. ring.
  - intros H0. apply Hback.
    rewrite (line_at seq a b 0) by (done || lia). rewrite H0. ring.
Qed.

(** C9, as the code has it.  In exact arithmetic integration is additive in
    its constant: [calculateIntegral(seq, C)[i].y] is
    [calculateIntegral(seq, 0)[i].y + C] at every index of the output.  In
    every arithmetic the two outputs have the same length and the same
    x-values. *)
Theorem calculateIntegral_shift :
  (∀ (seq : list (Point Qc)) (C : Qc) (i : nat),
     i < length (calculateIntegral seq C) →
     y (calculateIntegral seq C !!! i)
     = (y (calculateIntegral seq (lit 0) !!! i) + C)%Qc)
  ∧ (∀ (num : Type) (N : Number num) (seq : list (Point num)) (C : num),
       length (calculateIntegral seq C)
       = length (calculateIntegral seq (lit 0))
       ∧ x <$> calculateIntegral seq C
         = x <$> calculateIntegral seq (lit 0)).
Proof.
  split.
  - intros seq C i Hi. rewrite length_calculateIntegral in Hi.
    rewrite !lookup_calculateIntegral by done. simpl.
    apply running_total_shift.
  - intros num N seq C.
    split; [by rewrite !length_calculateIntegral|].
    by rewrite !x_values_calculateIntegral.
Qed.

(** In exact arithmetic the anchor is kept whatever the old first y-value
    is, zero included. *)
Lemma handleDerivativeDrag_anchored_exact `{!NotANumber Qc}
    (functionPoints derivativePoints : list (Point Qc)) (index : nat)
    (newY : Qc) :
  functionPoints ≠ [] →
  index < length derivativePoints →
  ∃ reconstructed,
    handleDerivativeDrag (of_points derivativePoints) (of_points functionPoints)
                         (Z.of_nat index) newY
    = Normal (of_points reconstructed)
    ∧ length reconstructed = length derivativePoints
    ∧ y (reconstructed !!! 0%nat) = y (functionPoints !!! 0%nat).
Proof.
  intros Hne Hi. eexists. split; [by apply handleDerivativeDrag_in_range|].
  rewrite length_calculateIntegral, length_alter. split; [done|].
  rewrite lookup_calculateIntegral by (rewrite length_alter; lia).
  rewrite anchor_typed. destruct functionPoints as [|p rest]; [done|].
  change ((p :: rest) !!! 0%nat) with p.
  destruct (exact_truthy_or_zero (y p)) as [->|Hz]; [done|].
  rewrite Hz. by destruct (truthy (lit 0 : Qc)).
Qed.

(** With an exact grid the two ways of reading [i*(maxX - minX)/(count - 1)]
    agree as soon as there are two samples. *)
Lemma uniform_grid_exact (minX maxX : Qc) (steps i : nat) :
  2 ≤ steps →
  (minX + lit i * ((maxX - minX) / (lit steps - lit 1)))%Qc
  = (minX + lit i * (maxX - minX) / (lit steps - lit 1))%Qc.
Proof.
  intros Hs. field. intros Heq.
  assert (Exact.of_nat steps = Exact.of_nat 1) as Hone.
  { change (lit steps - lit 1 = 0)%Qc in Heq.
    change (lit steps) with (Exact.of_nat steps) in Heq.
    change (lit 1) with (Exact.of_nat 1) in Heq.
    rewrite <- (Qcplus_0_l (Exact.of_nat 1)), <- Heq. ring. }
  unfold Exact.of_nat in Hone. apply Q2Qc_eq_iff in Hone.
  unfold Qeq in Hone. simpl in Hone. lia.
Qed.

End ExactClaims.

(** * The program's arithmetic: runs in binary64 *)

Section FloatRuns.
Import PrimFloat.

(** NaN is a number that [||] rejects. *)
Lemma float_nan_falsy : truthy (nan : float) = false.
Proof. reflexivity. Qed.

(** [v || 0] compares equal to [v] for every [v] but NaN: the negative zero
    becomes the positive one. *)
Lemma float_or_zero_equal (f : float) :
  eqb f f = true →
  eqb (Runtime.or_number (Num f) (lit 0)) f = true.
Proof.
  intros Hf. unfold Runtime.or_number.
  change (truthy f) with (negb (eqb f 0) && eqb f f). rewrite Hf.
  destruct (eqb f 0) eqn:Hz; [|done]. simpl.
  change (lit 0) with 0%float.
  rewrite FloatAxioms.eqb_spec in Hz |- *.
  destruct (FloatOps.Prim2SF f) as [s|s| |s m e]; try done; by destruct s.
Qed.

(** Anchoring in the program's arithmetic: unless the old first y-value is NaN, the
    new first y-value compares equal to it. *)
Lemma handleDerivativeDrag_anchored_binary64
    (functionPoints derivativePoints : list (Point float)) (index : nat)
    (newY : float) :
  functionPoints ≠ [] →
  index < length derivativePoints →
  eqb (y (functionPoints !!! 0%nat)) (y (functionPoints !!! 0%nat)) = true →
  ∃ reconstructed,
    handleDerivativeDrag (of_points derivativePoints) (of_points functionPoints)
                         (Z.of_nat index) newY
    = Normal (of_points reconstructed)
    ∧ eqb (y (reconstructed !!! 0%nat)) (y (functionPoints !!! 0%nat)) = true.
Proof.
  intros Hne Hi Hy. eexists. split; [by apply handleDerivativeDrag_in_range|].
  rewrite lookup_calculateIntegral by (rewrite length_alter; lia).
  destruct functionPoints as [|p rest]; [done|].
  by apply float_or_zero_equal.
Qed.

(** The concrete scenarios of the specification (section 8). *)
Example scenario_1 :
  calculateDerivative [Float.pt 0 0; Float.pt 1 1; Float.pt 2 4]
  = [Float.pt 0 1; Float.pt 1 2; Float.pt 2 3].
Proof. reflexivity. Qed.

Example scenario_2 :
  calculateIntegral [Float.pt 0 1; Float.pt 1 1] 0%float
  = [Float.pt 0 0; Float.pt 1 1].
Proof. reflexivity. Qed.

Example scenario_3 :
  calculateDerivative [Float.pt 3 4] = []
  ∧ calculateIntegral [Float.pt 3 4] 5%float = [Float.pt 3 5].
Proof. split; reflexivity. Qed.

(** A single sample: the step is a division by zero and the sample's x is
    NaN, which is also what [minX + 0*(maxX - minX)/(1 - 1)] evaluates to. *)
Example one_sample :
  generateFunctionPoints (λ v, v) 0%float 1%float 1 = [Float.pt nan nan]
  ∧ (0 + Float.of_nat 0 * (1 - 0) / (Float.of_nat 1 - Float.of_nat 1))%float
    = nan.
Proof. split; reflexivity. Qed.

Lemma calculateDerivative_finite_differences_witness :
  2 ≤ length [Float.pt 0 0; Float.pt 1 1; Float.pt 2 4]
  ∧ length (calculateDerivative [Float.pt 0 0; Float.pt 1 1; Float.pt 2 4])
    = 3
  ∧ y (calculateDerivative [Float.pt 0 0; Float.pt 1 1; Float.pt 2 4] !!! 1%nat)
    = 2%float.
Proof.
  destruct (calculateDerivative_finite_differences
              [Float.pt 0 0; Float.pt 1 1; Float.pt 2 4]) as [H _].
  destruct (H ltac:(simpl; lia)) as (Hlen & _ & _ & _ & Hmid).
  split; [simpl; lia|]. split; [exact Hlen|].
  rewrite (Hmid 1%nat) by (simpl; lia). reflexivity.
Defined.

Lemma calculateIntegral_trapezoids_witness :
  1 ≤ length [Float.pt 0 1; Float.pt 1 1]
  ∧ length (calculateIntegral [Float.pt 0 1; Float.pt 1 1] 7%float) = 2
  ∧ y (calculateIntegral [Float.pt 0 1; Float.pt 1 1] 7%float !!! 0%nat)
    = 7%float.
Proof.
  destruct (calculateIntegral_trapezoids
              [Float.pt 0 1; Float.pt 1 1] 7%float) as [H _].
  destruct (H ltac:(simpl; lia)) as (Hlen & _ & Hfirst & _).
  split; [simpl; lia|]. split; [exact Hlen|exact Hfirst].
Defined.

Lemma generateFunctionPoints_uniform_witness :
  1 < 3
  ∧ generateFunctionPoints (λ v, v * v)%float 0%float 1%float 3 !! 1%nat
    = Some (Float.pt 0.5 0.25).
Proof.
  destruct (generateFunctionPoints_uniform
              (λ v, v * v)%float 0%float 1%float 3) as [_ H].
  split; [lia|]. rewrite (H 1%nat) by lia. reflexivity.
Defined.

Lemma handleFunctionDrag_frame_witness :
  1 < length [Float.pt 0 0; Float.pt 1 1; Float.pt 2 4]
  ∧ ∃ next,
      handleFunctionDrag (of_points [Float.pt 0 0; Float.pt 1 1; Float.pt 2 4])
                         1 9%float
      = Normal (of_points next)
      ∧ length next = 3.
Proof.
  split; [simpl; lia|].
  destruct (handleFunctionDrag_frame
              [Float.pt 0 0; Float.pt 1 1; Float.pt 2 4] 1 9%float)
    as (next & Hrun & Hlen & _); [simpl; lia|].
  exists next. split; [exact Hrun|exact Hlen].
Defined.

Lemma handleDerivativeDrag_anchored_witness :
  [Float.pt 0 7; Float.pt 1 8; Float.pt 2 11] ≠ []
  ∧ 1 < length (calculateDerivative [Float.pt 0 7; Float.pt 1 8; Float.pt 2 11])
  ∧ ∃ reconstructed,
      handleDerivativeDrag
        (of_points (calculateDerivative
                      [Float.pt 0 7; Float.pt 1 8; Float.pt 2 11]))
        (of_points [Float.pt 0 7; Float.pt 1 8; Float.pt 2 11]) 1 5%float
      = Normal (of_points reconstructed)
      ∧ y (reconstructed !!! 0%nat) = 7%float.
Proof.
  split; [discriminate|]. split; [vm_compute; lia|].
  destruct (handleDerivativeDrag_anchored
              [Float.pt 0 7; Float.pt 1 8; Float.pt 2 11]
              (calculateDerivative [Float.pt 0 7; Float.pt 1 8; Float.pt 2 11])
              1 5%float)
    as (reconstructed & Hrun & _ & _ & Hfirst);
    [discriminate|vm_compute; lia|left; reflexivity|].
  exists reconstructed. split; [exact Hrun|exact Hfirst].
Defined.

Lemma handleDerivativeDrag_fallback_witness :
  1 < length [Float.pt 0 1; Float.pt 1 1]
  ∧ truthy (y ([Float.pt 0 nan; Float.pt 1 8] !!! 0%nat)) = false
  ∧ handleDerivativeDrag (of_points [Float.pt 0 1; Float.pt 1 1])
                         (of_points [Float.pt 0 nan; Float.pt 1 8]) 1 3%float
    = Normal (of_points [Float.pt 0 0; Float.pt 1 2]).
Proof.
  split; [simpl; lia|]. split; [reflexivity|].
  rewrite (handleDerivativeDrag_fallback
             [Float.pt 0 nan; Float.pt 1 8] [Float.pt 0 1; Float.pt 1 1]
             1 3%float); [reflexivity|simpl; lia|right; reflexivity].
Defined.

Lemma out_of_range_edit_unchecked_witness :
  (Z.of_nat (length [Float.pt 0 1; Float.pt 1 1]) < 3
   ≤ Runtime.MAX_ARRAY_INDEX)%Z
  ∧ handleDerivativeDrag (of_points [Float.pt 0 1; Float.pt 1 1])
                         (of_points [Float.pt 0 7; Float.pt 1 8]) 3 5%float
    = TypeError
  ∧ (Runtime.MAX_ARRAY_INDEX < 4294967295)%Z
  ∧ handleDerivativeDrag (of_points [Float.pt 0 1; Float.pt 1 1])
                         (of_points [Float.pt 0 7; Float.pt 1 8])
                         4294967295 5%float
    = Normal (of_points [Float.pt 0 7; Float.pt 1 8]).
Proof.
  split; [unfold Runtime.MAX_ARRAY_INDEX; simpl; lia|].
  split.
  { apply (out_of_range_edit_unchecked
             [Float.pt 0 1; Float.pt 1 1]
             (of_points [Float.pt 0 7; Float.pt 1 8]) 3 5%float);
      unfold Runtime.MAX_ARRAY_INDEX; simpl; lia. }
  split; [unfold Runtime.MAX_ARRAY_INDEX; lia|].
  destruct (out_of_range_edit_unchecked
              [Float.pt 0 1; Float.pt 1 1]
              (of_points [Float.pt 0 7; Float.pt 1 8]) 4294967295 5%float)
    as (_ & Hsame & _); [right; simpl; lia|].
  destruct Hsame as [Hrun _]; [right; unfold Runtime.MAX_ARRAY_INDEX; lia|].
  rewrite Hrun. reflexivity.
Defined.

Lemma transformations_keep_increasing_x_witness :
  strictly_increasing [Float.pt 0 0; Float.pt 1 1; Float.pt 2 4]
  ∧ strictly_increasing
      (calculateDerivative [Float.pt 0 0; Float.pt 1 1; Float.pt 2 4]).
Proof.
  split; [reflexivity|].
  apply (transformations_keep_increasing_x
           [Float.pt 0 0; Float.pt 1 1; Float.pt 2 4] 0%float).
  reflexivity.
Defined.

(** C3, as stated, fails: when the first y-value of PRIMARY is NaN, the
    anchor is [NaN || 0], and the new PRIMARY starts at [0]. *)
Lemma handleDerivativeDrag_anchor_lost :
  [Float.pt 0 nan; Float.pt 1 8] ≠ []
  ∧ (1 < length (calculateDerivative [Float.pt 0 nan; Float.pt 1 8]))%nat
  ∧ handleDerivativeDrag
      (of_points (calculateDerivative [Float.pt 0 nan; Float.pt 1 8]))
      (of_points [Float.pt 0 nan; Float.pt 1 8]) 1 3%float
    = Normal (of_points [Float.pt 0 0; Float.pt 1 nan])
  ∧ y ([Float.pt 0 0; Float.pt 1 nan] !!! 0%nat)
    ≠ y ([Float.pt 0 nan; Float.pt 1 8] !!! 0%nat).
Proof.
  split; [discriminate|]. split; [vm_compute; lia|]. split; [reflexivity|].
  intros H. apply (f_equal (λ v, eqb v 0)) in H. vm_compute in H.
  discriminate H.
Qed.

(** C5, as stated, fails: a single point has increasing x-values, and its
    derivative is empty, so the x-value of the input is not in the output. *)
Lemma derivative_of_one_point_drops_x :
  strictly_increasing [Float.pt 0 0]
  ∧ x <$> calculateDerivative [Float.pt 0 0] ≠ x <$> [Float.pt 0 0].
Proof. split; [reflexivity|discriminate]. Qed.

(** C6, as stated, fails: index 2 is outside [[0, 1]], and the PRIMARY
    handler returns a sequence of three elements, the DERIVATIVE handler a
    new PRIMARY of three elements; a negative index passes through the
    ANTIDERIVATIVE handler unnoticed. *)
Lemma out_of_range_edit_not_rejected :
  handleFunctionDrag (of_points [Float.pt 0 0; Float.pt 1 1]) 2 5%float
  = Normal [ Some {| prop_x := Num 0%float; prop_y := Num 0%float |};
             Some {| prop_x := Num 1%float; prop_y := Num 1%float |};
             Some {| prop_x := Undefined; prop_y := Num 5%float |} ]
  ∧ handleDerivativeDrag (of_points [Float.pt 0 1; Float.pt 1 1])
                         (of_points [Float.pt 0 7; Float.pt 1 8]) 2 5%float
    = Normal [ Some {| prop_x := Num 0%float; prop_y := Num 7%float |};
               Some {| prop_x := Num 1%float; prop_y := Num 8%float |};
               Some {| prop_x := Undefined; prop_y := Num nan |} ]
  ∧ handleIntegralDrag (of_points [Float.pt 0 0; Float.pt 1 1]) (-1) 5%float
    = Normal (of_points [Float.pt 0 1; Float.pt 1 1]).
Proof. repeat split; reflexivity. Qed.

(** In the program's arithmetic the round trip of a line can miss the line
    by any amount: the sum of two equal slopes overflows although every
    sample and every slope is finite. *)
Example linear_roundtrip_overflows_in_binary64 :
  calculateDerivative
    [Float.pt 0 (-0x1.8p+1023 * 0 + 0x1p+1023);
     Float.pt 1 (-0x1.8p+1023 * 1 + 0x1p+1023)]
  = [Float.pt 0 (-0x1.8p+1023); Float.pt 1 (-0x1.8p+1023)]
  ∧ calculateIntegral
      (calculateDerivative
         [Float.pt 0 (-0x1.8p+1023 * 0 + 0x1p+1023);
          Float.pt 1 (-0x1.8p+1023 * 1 + 0x1p+1023)])
      (-0x1.8p+1023 * 0 + 0x1p+1023)%float
    = [Float.pt 0 0x1p+1023; Float.pt 1 neg_infinity].
Proof. split; reflexivity. Qed.

(** C9, as stated, fails in the program's arithmetic: with [C = 2^53] each
    added trapezoid of area 1 is rounded away, while [0 + 1 + 1] is exact. *)
Lemma integral_not_additive_in_binary64 :
  y (calculateIntegral [Float.pt 0 1; Float.pt 1 1; Float.pt 2 1]
                       9007199254740992%float !!! 2%nat)
  = 9007199254740992%float
  ∧ (y (calculateIntegral [Float.pt 0 1; Float.pt 1 1; Float.pt 2 1]
                          (lit 0) !!! 2%nat)
     + 9007199254740992%float)%num
    = 9007199254740994%float
  ∧ y (calculateIntegral [Float.pt 0 1; Float.pt 1 1; Float.pt 2 1]
                         9007199254740992%float !!! 2%nat)
    ≠ (y (calculateIntegral [Float.pt 0 1; Float.pt 1 1; Float.pt 2 1]
                            (lit 0) !!! 2%nat)
       + 9007199254740992%float)%num.
Proof.
  split; [reflexivity|]. split; [reflexivity|].
  intros H. apply (f_equal (λ v, eqb v 9007199254740992%float)) in H.
  vm_compute in H. discriminate H.
Qed.

End FloatRuns.

(** * Runs in exact arithmetic *)

Section ExactRuns.

(** C4, as stated, fails.  The points (1,1), (2,2) lie on [y = 1*x + 0]; from
    the constant [b = 0] the round trip returns (1,0), (2,1).  And a single
    point sampled from [y = 0*x + 5] comes back as the empty sequence. *)
Lemma linear_roundtrip_from_b_fails :
  strictly_increasing [Exact.pt 1 1; Exact.pt 2 2]
  ∧ Forall (λ p, y p = (1 * x p + 0)%Qc) [Exact.pt 1 1; Exact.pt 2 2]
  ∧ calculateIntegral (calculateDerivative [Exact.pt 1 1; Exact.pt 2 2]) 0%Qc
    = [Exact.pt 1 0; Exact.pt 2 1]
  ∧ calculateIntegral (calculateDerivative [Exact.pt 1 1; Exact.pt 2 2]) 0%Qc
    ≠ [Exact.pt 1 1; Exact.pt 2 2]
  ∧ strictly_increasing [Exact.pt 0 5]
  ∧ Forall (λ p, y p = (0 * x p + Q2Qc 5)%Qc) [Exact.pt 0 5]
  ∧ calculateIntegral (calculateDerivative [Exact.pt 0 5]) (Q2Qc 5)
    ≠ [Exact.pt 0 5].
Proof.
  assert (Hrun : calculateIntegral
                   (calculateDerivative [Exact.pt 1 1; Exact.pt 2 2]) 0%Qc
                 = [Exact.pt 1 0; Exact.pt 2 1]).
  { unfold Exact.pt. repeat f_equal; apply Qc_is_canon; reflexivity. }
  split; [reflexivity|].
  split; [repeat constructor; apply Qc_is_canon; reflexivity|].
  split; [exact Hrun|]. split.
  { rewrite Hrun. intros H. discriminate H. }
  split; [reflexivity|].
  split; [repeat constructor; apply Qc_is_canon; reflexivity|].
  discriminate.
Qed.

Lemma linear_roundtrip_witness :
  strictly_increasing [Exact.pt 1 5; Exact.pt 2 7; Exact.pt 4 11]
  ∧ 2 ≤ length [Exact.pt 1 5; Exact.pt 2 7; Exact.pt 4 11]
  ∧ Forall (λ p, y p = (Q2Qc 2 * x p + Q2Qc 3)%Qc)
           [Exact.pt 1 5; Exact.pt 2 7; Exact.pt 4 11]
  ∧ calculateIntegral
      (calculateDerivative [Exact.pt 1 5; Exact.pt 2 7; Exact.pt 4 11])
      (y ([Exact.pt 1 5; Exact.pt 2 7; Exact.pt 4 11] !!! 0%nat))
    = [Exact.pt 1 5; Exact.pt 2 7; Exact.pt 4 11].
Proof.
  assert (Hline : Forall (λ p, y p = (Q2Qc 2 * x p + Q2Qc 3)%Qc)
                         [Exact.pt 1 5; Exact.pt 2 7; Exact.pt 4 11]).
  { repeat constructor; apply Qc_is_canon; reflexivity. }
  split; [reflexivity|]. split; [simpl; lia|]. split; [exact Hline|].
  destruct linear_roundtrip as [Hexact _].
  apply (Hexact [Exact.pt 1 5; Exact.pt 2 7; Exact.pt 4 11]
                (Q2Qc 2) (Q2Qc 3));
    [reflexivity|simpl; lia|exact Hline].
Defined.

Lemma calculateIntegral_shift_witness :
  1 < length (calculateIntegral [Exact.pt 0 1; Exact.pt 1 3] (Q2Qc 5))
  ∧ y (calculateIntegral [Exact.pt 0 1; Exact.pt 1 3] (Q2Qc 5) !!! 1%nat)
    = (y (calculateIntegral [Exact.pt 0 1; Exact.pt 1 3] (lit 0) !!! 1%nat)
       + Q2Qc 5)%Qc.
Proof.
  split; [vm_compute; lia|].
  destruct calculateIntegral_shift as [Hexact _].
  apply (Hexact [Exact.pt 0 1; Exact.pt 1 3] (Q2Qc 5)).
  vm_compute; lia.
Defined.

End ExactRuns.

(** * Further properties of the engines and the coordinator *)

Section RuntimeErrors.
Context {num : Type} `{!Number num, !NotANumber num}.
Implicit Types (a : JsArray num) (i k n : nat).

Lemma hole_or_dense a :
  Forall is_Some a ∨ ∃ k, k < length a ∧ Runtime.element a k = None.
Proof.
  induction a as [|e a IH]; [left; constructor|].
  destruct e as [o|].
  - destruct IH as [Hd|(k & Hk & Hole)].
    + left. constructor; [by eexists|done].
    + right. exists (S k). split; [simpl; lia|done].
  - right. exists 0. split; [simpl; lia|done].
Qed.

(** X1.  At run time [calculateIntegral] raises exactly when the array misses
    an element; objects that miss [x] or [y] never make it raise (their values
    count as NaN), and the empty array gives the empty array. *)
Theorem runtime_calculateIntegral_raises_iff a (initialC : num) :
  (Runtime.calculateIntegral a initialC = TypeError
   ↔ ∃ k, k < length a ∧ Runtime.element a k = None)
  ∧ (Forall is_Some a →
     ∃ integral, Runtime.calculateIntegral a initialC = Normal integral).
Proof.
  split; [|apply runtime_calculateIntegral_dense]. split.
  - intros Herr. destruct (hole_or_dense a) as [Hd|Hole]; [|done].
    destruct (runtime_calculateIntegral_dense a initialC Hd) as [r Hr].
    congruence.
  - intros (k & Hk & Hole). by eapply runtime_calculateIntegral_hole.
Qed.

(** X2.  At run time [calculateDerivative] returns the empty array for fewer
    than two elements without reading any; for two or more it raises exactly
    when the array misses an element. *)
Theorem runtime_calculateDerivative_raises_iff a :
  (length a < 2 → Runtime.calculateDerivative a = Normal [])
  ∧ (2 ≤ length a →
     (Runtime.calculateDerivative a = TypeError
      ↔ ∃ k, k < length a ∧ Runtime.element a k = None)).
Proof.
  split.
  - intros Hn. unfold Runtime.calculateDerivative.
    by rewrite bool_decide_eq_true_2.
  - intros Hn. split.
    + intros Herr. destruct (hole_or_dense a) as [Hd|Hole]; [|done].
      destruct (runtime_calculateDerivative_dense a Hd) as [r Hr].
      congruence.
    + intros (k & Hk & Hole). by eapply runtime_calculateDerivative_hole.
Qed.

End RuntimeErrors.

Section EditLocality.
Context {num : Type} `{!Number num}.
Implicit Types (points : list (Point num)) (i j k n : nat).

Lemma x_alter_with_y points i k (newY : num) :
  x (alter (λ p, with_y p newY) i points !!! k) = x (points !!! k).
Proof.
  rewrite list_lookup_total_alter.
  case_decide as H; [destruct H as [-> _]|]; done.
Qed.

Lemma y_alter_with_y_ne points i k (newY : num) :
  k ≠ i → y (alter (λ p, with_y p newY) i points !!! k) = y (points !!! k).
Proof.
  intros Hne. rewrite list_lookup_total_alter.
  case_decide as H; [|done]. destruct H as [-> _]. done.
Qed.

Lemma y_alter_with_y_eq points i (newY : num) :
  i < length points → y (alter (λ p, with_y p newY) i points !!! i) = newY.
Proof.
  intros Hi. by rewrite list_lookup_total_alter_eq.
Qed.

(** The slope at [j] reads the y-values of the two neighbours of [j] (of [j]
    and its one neighbour at the ends), so an edit elsewhere leaves it as it
    was. *)
Lemma slope_alter_elsewhere points i j (newY : num) :
  j < length points →
  i + 1 < j ∨ j + 1 < i ∨ (i = j ∧ 0 < j < length points - 1) →
  slope (alter (λ p, with_y p newY) i points) j = slope points j.
Proof.
  intros Hj Hfar. unfold slope. rewrite length_alter.
  repeat case_bool_decide;
    rewrite !x_alter_with_y, !y_alter_with_y_ne by lia; done.
Qed.

(** The running total at [j] reads the samples up to [j] only. *)
Lemma running_total_alter_before points (C : num) i j (newY : num) :
  j < i →
  running_total (alter (λ p, with_y p newY) i points) C j
  = running_total points C j.
Proof.
  intros Hj. induction j as [|j IH]; [done|].
  cbn [running_total].
  rewrite IH, !x_alter_with_y, !y_alter_with_y_ne by lia. done.
Qed.

End EditLocality.

Section CoordinatorLocality.
Context {num : Type} `{!Number num, !NotANumber num}.
Implicit Types (points integralPoints derivativePoints : list (Point num)).
Implicit Types (i j k n : nat).

(** X3.  An in-range edit of a well-typed ANTIDERIVATIVE never raises: the
    new PRIMARY is the derivative of the edited sequence.  With two or more
    points it has the length and the x-values of the ANTIDERIVATIVE; with one
    point it is empty. *)
Theorem handleIntegralDrag_in_range integralPoints (index : nat) (newY : num) :
  index < length integralPoints →
  ∃ reconstructed,
    handleIntegralDrag (of_points integralPoints) (Z.of_nat index) newY
    = Normal (of_points reconstructed)
    ∧ reconstructed
      = calculateDerivative (alter (λ p, with_y p newY) index integralPoints)
    ∧ (2 ≤ length integralPoints →
       length reconstructed = length integralPoints
       ∧ x <$> reconstructed = x <$> integralPoints)
    ∧ (length integralPoints < 2 → reconstructed = []).
Proof.
  intros Hi. eexists. split; [|split; [reflexivity|split]].
  - unfold handleIntegralDrag. rewrite edited_in_range by done.
    by rewrite runtime_calculateDerivative_typed.
  - intros Hn.
    rewrite length_calculateDerivative by (by rewrite length_alter).
    rewrite x_values_calculateDerivative by (by rewrite length_alter).
    by rewrite length_alter, x_values_alter_with_y.
  - intros Hn. apply calculateDerivative_short. by rewrite length_alter.
Qed.

(** X4.  A drag of the ANTIDERIVATIVE at index [i] is local: the new PRIMARY
    differs from the derivative of the unedited ANTIDERIVATIVE at most at
    [i-1], [i] and [i+1], and at an interior [i] not even at [i] itself, since
    a central difference does not read its own sample. *)
Theorem handleIntegralDrag_local integralPoints (i j : nat) (newY : num) :
  2 ≤ length integralPoints →
  i < length integralPoints → j < length integralPoints →
  i + 1 < j ∨ j + 1 < i ∨ (i = j ∧ 0 < j < length integralPoints - 1) →
  ∃ reconstructed,
    handleIntegralDrag (of_points integralPoints) (Z.of_nat i) newY
    = Normal (of_points reconstructed)
    ∧ reconstructed !!! j = calculateDerivative integralPoints !!! j.
Proof.
  intros Hn Hi Hj Hfar. eexists. split.
  - unfold handleIntegralDrag. rewrite edited_in_range by done.
    by rewrite runtime_calculateDerivative_typed.
  - rewrite !lookup_calculateDerivative by (rewrite ?length_alter; lia).
    by rewrite x_alter_with_y, slope_alter_elsewhere.
Qed.

(** X5.  A drag of the DERIVATIVE at index [i] leaves the reconstructed
    function, at every index left of [i], as the integral of the unedited
    DERIVATIVE from the same anchor: the running total at [j] reads the
    samples up to [j] only. *)
Theorem handleDerivativeDrag_prefix derivativePoints
    (functionPoints : JsArray num) (i j : nat) (newY : num) :
  i < length derivativePoints → j < i →
  ∃ reconstructed,
    handleDerivativeDrag (of_points derivativePoints) functionPoints
                         (Z.of_nat i) newY
    = Normal (of_points reconstructed)
    ∧ reconstructed !!! j
      = calculateIntegral derivativePoints
          (Runtime.or_number
             (Runtime.optional_y (Runtime.element_at functionPoints 0))
             (lit 0)) !!! j.
Proof.
  intros Hi Hj. eexists. split.
  - by apply handleDerivativeDrag_in_range.
  - rewrite !lookup_calculateIntegral by (rewrite ?length_alter; lia).
    by rewrite x_alter_with_y, running_total_alter_before.
Qed.

End CoordinatorLocality.

(** * Further properties in exact arithmetic *)

Section ExactEngines.
Implicit Types (seq points : list (Point Qc)) (i j k n : nat) (a b c : Qc).

Lemma exact_lit_1 : (lit 1 : Qc) = 1%Qc.
Proof. apply Qc_is_canon. reflexivity. Qed.

Lemma exact_lit_S n : (lit (S n) : Qc) = (lit n + 1)%Qc.
Proof.
  apply Qc_is_canon. simpl. rewrite !Qred_correct.
  unfold Qeq. simpl. lia.
Qed.

Lemma exact_lit_pos n : 0 < n → (0 < lit n)%Qc.
Proof.
  intros Hn. unfold Qclt. simpl. rewrite !Qred_correct.
  unfold Qlt. simpl. lia.
Qed.

Lemma exact_inv_pos a : (0 < a)%Qc → (0 < / a)%Qc.
Proof.
  unfold Qclt. simpl. rewrite !Qred_correct.
  apply Qinv_lt_0_compat.
Qed.

(** The step of a grid of at least two samples over a proper interval is
    positive. *)
Lemma exact_step_pos (minX maxX : Qc) (steps : nat) :
  (minX < maxX)%Qc → 2 ≤ steps →
  (0 < (maxX - minX) / (lit steps - lit 1))%Qc.
Proof.
  intros Hx Hs. destruct steps as [|m]; [lia|].
  rewrite exact_lit_S, exact_lit_1.
  replace (lit m + 1 - 1)%Qc with (lit m : Qc) by ring.
  unfold Qcdiv.
  replace 0%Qc with (0 * / lit m)%Qc by ring.
  apply Qcmult_lt_compat_r.
  - apply exact_inv_pos, exact_lit_pos. lia.
  - apply Qclt_minus_iff in Hx. exact Hx.
Qed.

End ExactEngines.

(** A list is increasing as soon as each element is below the next. *)
Lemma increasing_adjacent {num : Type} `{!Number num} (l : list num) :
  (∀ i a b, l !! i = Some a → l !! S i = Some b → less a b = true) →
  increasing l = true.
Proof.
  induction l as [|a [|b l] IH]; intros Hadj; [done..|].
  cbn [increasing]. apply andb_true_intro. split.
  - by apply (Hadj 0).
  - apply IH. intros i a' b' Ha Hb. by apply (Hadj (S i)).
Qed.

Section ExactSampling.
Implicit Types (i j k n : nat) (a b c : Qc).

(** X6.  In exact arithmetic sampling establishes the invariant of the data
    model: over a proper interval and with at least two samples the x-values
    of [generateFunctionPoints] are strictly increasing. *)
Theorem generateFunctionPoints_increasing (func : Qc → Qc) (minX maxX : Qc)
    (steps : nat) :
  (minX < maxX)%Qc → 2 ≤ steps →
  strictly_increasing (generateFunctionPoints func minX maxX steps).
Proof.
  intros Hx Hs. unfold strictly_increasing.
  rewrite generateFunctionPoints_closed.
  apply increasing_adjacent. intros i a b Ha Hb.
  rewrite <- list_fmap_compose in Ha, Hb.
  assert (S i < steps) as Hi.
  { apply lookup_lt_Some in Hb. by rewrite length_fmap, length_seq in Hb. }
  rewrite lookup_fmap_seq in Ha, Hb by lia.
  injection Ha as <-. injection Hb as <-. simpl.
  apply exact_ltb_lt. apply Qclt_minus_iff.
  pose proof (exact_step_pos minX maxX steps Hx Hs) as Hpos.
  change (lit steps - lit 1)%num with (lit steps - lit 1)%Qc in *.
  change (Exact.of_nat (S i)) with (lit (S i) : Qc).
  change (Exact.of_nat i) with (lit i : Qc).
  change (Qcminus maxX minX) with (maxX - minX)%Qc in *.
  change (Exact.of_nat steps) with (lit steps : Qc).
  change (Exact.of_nat 1) with (lit 1 : Qc).
  rewrite exact_lit_S.
  match goal with
  | |- (0 < ?e)%Qc =>
      replace e with ((maxX - minX) / (lit steps - lit 1))%Qc; [exact Hpos|ring]
  end.
Qed.

(** X7.  In exact arithmetic, with at least two samples, the grid of
    [generateFunctionPoints] starts at [minX] and ends at [maxX]. *)
Theorem generateFunctionPoints_endpoints (func : Qc → Qc) (minX maxX : Qc)
    (steps : nat) :
  2 ≤ steps →
  x (generateFunctionPoints func minX maxX steps !!! 0%nat) = minX
  ∧ x (generateFunctionPoints func minX maxX steps !!! (steps - 1)%nat) = maxX.
Proof.
  intros Hs. rewrite generateFunctionPoints_closed.
  assert (lit steps - lit 1 ≠ 0)%Qc as Hstep.
  { destruct steps as [|m]; [lia|]. rewrite exact_lit_S, exact_lit_1.
    replace (lit m + 1 - 1)%Qc with (lit m : Qc) by ring.
    apply not_eq_sym, Qclt_not_eq, exact_lit_pos. lia. }
  split.
  - erewrite list_lookup_total_correct; [|by rewrite lookup_fmap_seq by lia].
    simpl. change (Exact.of_nat 0) with (lit 0 : Qc).
    change (Exact.of_nat steps) with (lit steps : Qc).
    change (Exact.of_nat 1) with (lit 1 : Qc).
    rewrite exact_lit_0. field. exact Hstep.
  - erewrite list_lookup_total_correct; [|by rewrite lookup_fmap_seq by lia].
    simpl. destruct steps as [|m]; [lia|].
    replace (S m - 1) with m by lia.
    change (Exact.of_nat (S m)) with (lit (S m) : Qc) in *.
    change (Exact.of_nat 1) with (lit 1 : Qc) in *.
    change (Exact.of_nat m) with (lit m : Qc).
    rewrite exact_lit_S, exact_lit_1 in *. field. exact Hstep.
Qed.

End ExactSampling.

Section ExactComposition.
Implicit Types (seq points : list (Point Qc)) (i j k n : nat) (a b c : Qc).

(** Unfold the arithmetic to the operations of [Qc], with the literal [2]
    written [1 + 1]. *)
Local Ltac exact_two :=
  simpl; change (Exact.of_nat 2) with (lit 2 : Qc); rewrite exact_lit_2.

(** The y-values raised by [c]. *)
Local Abbreviation raised c points :=
  ((λ p, {| x := x p; y := (y p + c)%Qc |}) <$> points).

Lemma lookup_raised points c k :
  k < length points →
  raised c points !!! k
  = {| x := x (points !!! k); y := (y (points !!! k) + c)%Qc |}.
Proof.
  intros Hk. apply list_lookup_total_correct.
  by rewrite list_lookup_fmap, (list_lookup_lookup_total_lt points k).
Qed.

Lemma slope_raised points c i :
  2 ≤ length points → i < length points →
  slope (raised c points) i = slope points i.
Proof.
  intros Hn Hi. unfold slope. rewrite length_fmap.
  repeat case_bool_decide;
    rewrite !lookup_raised by lia; simpl;
    unfold Qcdiv; f_equal; ring.
Qed.

Lemma calculateDerivative_raised points c :
  calculateDerivative (raised c points) = calculateDerivative points.
Proof.
  destruct (decide (2 ≤ length points)) as [Hn|Hn].
  - rewrite !calculateDerivative_closed by (rewrite ?length_fmap; lia).
    rewrite length_fmap. apply list_eq. intros i.
    rewrite !list_lookup_fmap.
    destruct (seq 0 (length points) !! i) as [j|] eqn:Hj; [|done].
    apply lookup_seq in Hj as [-> Hj]. simpl.
    rewrite slope_raised, lookup_raised by lia. done.
  - by rewrite !calculateDerivative_short by (rewrite ?length_fmap; lia).
Qed.

Lemma calculateIntegral_raised seq (C : Qc) :
  calculateIntegral seq C = raised C (calculateIntegral seq (lit 0)).
Proof.
  rewrite !calculateIntegral_closed, <- list_fmap_compose.
  apply list_fmap_ext. intros i j _. simpl. f_equal.
  apply running_total_shift.
Qed.

(** X8.  In exact arithmetic differentiation ignores a vertical shift: raising
    every y-value by [c] leaves [calculateDerivative] as it was.  Hence the
    derivative of [calculateIntegral(seq, C)] does not depend on [C]. *)
Theorem calculateDerivative_ignores_shift seq (c C : Qc) :
  calculateDerivative ((λ p, {| x := x p; y := (y p + c)%Qc |}) <$> seq)
  = calculateDerivative seq
  ∧ calculateDerivative (calculateIntegral seq C)
    = calculateDerivative (calculateIntegral seq (lit 0)).
Proof.
  split; [apply calculateDerivative_raised|].
  rewrite (calculateIntegral_raised seq C). apply calculateDerivative_raised.
Qed.

(** X9.  In exact arithmetic differentiating the integral does not give the
    sequence back but a smoothed one: at both ends the mean of the two
    outermost y-values, and inside the trapezoids on both sides of the sample
    divided by the distance of its neighbours.  The first two need the
    x-values to be strictly increasing. *)
Theorem calculateDerivative_of_integral seq (C : Qc) :
  let smoothed := calculateDerivative (calculateIntegral seq C) in
  let n := length seq in
  2 ≤ n →
  (strictly_increasing seq →
   y (smoothed !!! 0%nat)
   = ((y (seq !!! 1%nat) + y (seq !!! 0%nat)) / lit 2)%Qc
   ∧ y (smoothed !!! (n - 1)%nat)
     = ((y (seq !!! (n - 1)%nat) + y (seq !!! (n - 2)%nat)) / lit 2)%Qc)
  ∧ (∀ i, 0 < i < n - 1 →
       y (smoothed !!! i)
       = (((y (seq !!! (i + 1)%nat) + y (seq !!! i)) / lit 2
           * (x (seq !!! (i + 1)%nat) - x (seq !!! i))
           + (y (seq !!! i) + y (seq !!! (i - 1)%nat)) / lit 2
             * (x (seq !!! i) - x (seq !!! (i - 1)%nat)))
          / (x (seq !!! (i + 1)%nat) - x (seq !!! (i - 1)%nat)))%Qc).
Proof.
  intros smoothed n Hn. subst smoothed n.
  assert (Hlen := length_calculateIntegral seq C).
  split.
  - intros Hinc. split.
    + rewrite lookup_calculateDerivative by lia. cbn [x y]. unfold slope.
      rewrite bool_decide_eq_true_2 by done.
      rewrite !lookup_calculateIntegral by lia. cbn [x y running_total].
      pose proof (strictly_increasing_apart seq 0 1 Hinc) as Hne.
      exact_two. field. split; [discriminate|apply Hne; lia].
    + rewrite lookup_calculateDerivative by lia. cbn [x y]. unfold slope.
      rewrite bool_decide_eq_false_2, bool_decide_eq_true_2 by lia.
      rewrite !lookup_calculateIntegral by lia. cbn [x y running_total].
      destruct (length seq) as [|[|m]] eqn:Hm; [lia..|].
      replace (S (S m) - 1) with (S m) by lia.
      replace (S m - 1) with m by lia.
      replace (S (S m) - 2) with m by lia.
      cbn [running_total].
      pose proof (strictly_increasing_apart seq m (S m) Hinc) as Hne.
      exact_two. field. split; [discriminate|apply Hne; lia].
  - intros i Hi.
    rewrite lookup_calculateDerivative by lia. cbn [x y]. unfold slope.
    rewrite !bool_decide_eq_false_2 by lia.
    rewrite !lookup_calculateIntegral by lia. cbn [x y running_total].
    destruct i as [|k]; [lia|].
    replace (S k + 1) with (S (S k)) by lia.
    replace (S k - 1) with k by lia.
    cbn [running_total]. exact_two. unfold Qcdiv. f_equal. ring.
Qed.

(** The running totals after an edit of the sample [i]. *)
Lemma running_total_edit points (C newY : Qc) i j :
  i < length points → i ≤ j → j < length points →
  running_total (alter (λ p, with_y p newY) i points) C j
  = (running_total points C j
     + (newY - y (points !!! i)) / lit 2
       * (x (points !!! (Nat.min j (i + 1))) - x (points !!! (i - 1)%nat)))%Qc.
Proof.
  intros Hi Hij Hj. induction j as [|j IH].
  - replace i with 0 by lia. exact_two. field. discriminate.
  - cbn [running_total]. rewrite !x_alter_with_y.
    destruct (decide (i = S j)) as [->|Hne].
    + rewrite running_total_alter_before by lia.
      rewrite y_alter_with_y_eq, y_alter_with_y_ne by lia.
      replace (Nat.min (S j) (S j + 1)) with (S j) by lia.
      replace (S j - 1) with j by lia.
      exact_two. field. discriminate.
    + rewrite IH by lia. rewrite (y_alter_with_y_ne _ _ (S j)) by lia.
      destruct (decide (i = j)) as [->|Hne'].
      * rewrite y_alter_with_y_eq by lia.
        replace (Nat.min j (j + 1)) with j by lia.
        replace (Nat.min (S j) (j + 1)) with (S j) by lia.
        exact_two. field. discriminate.
      * rewrite y_alter_with_y_ne by lia.
        replace (Nat.min j (i + 1)) with (i + 1) by lia.
        replace (Nat.min (S j) (i + 1)) with (i + 1) by lia.
        exact_two. field. discriminate.
Qed.

(** X10.  In exact arithmetic, changing the y-value of the sample [i] from
    [y[i]] to [newY] moves every output of [calculateIntegral] right of [i]
    by one and the same amount, [(newY - y[i]) / 2 * (x[i+1] - x[i-1])] (with
    [x[i-1]] read as [x[0]] for [i = 0]), and the output at [i] itself by
    [(newY - y[i]) / 2 * (x[i] - x[i-1])]. *)
Theorem calculateIntegral_edit_shift points (C newY : Qc) i j :
  i < length points → i ≤ j → j < length points →
  y (calculateIntegral (alter (λ p, with_y p newY) i points) C !!! j)
  = (y (calculateIntegral points C !!! j)
     + (newY - y (points !!! i)) / lit 2
       * (x (points !!! (Nat.min j (i + 1))) - x (points !!! (i - 1)%nat)))%Qc.
Proof.
  intros Hi Hij Hj.
  rewrite !lookup_calculateIntegral by (rewrite ?length_alter; lia).
  simpl. by apply running_total_edit.
Qed.

End ExactComposition.

(** * The component state *)

Section AppFacts.
Context {num : Type} `{!Number num, !NotANumber num}.
Variables (MIN_X MAX_X : num).
Implicit Types (st : AppState num) (primary : list (Point num)).
Implicit Types (ev : Event num) (i k n : nat).

(** On a well-typed, non-empty PRIMARY the effect never raises and replaces
    both derived sequences. *)
Lemma updateDerived_typed primary (derivative integral : JsArray num) :
  1 ≤ length primary →
  updateDerived {| functionPoints := of_points primary;
                   derivativePoints := derivative;
                   integralPoints := integral |}
  = Normal {| functionPoints := of_points primary;
              derivativePoints := of_points (calculateDerivative primary);
              integralPoints := of_points (calculateIntegral primary (lit 0)) |}.
Proof.
  intros Hn. unfold updateDerived. simpl.
  rewrite length_of_points, bool_decide_eq_false_2 by lia.
  by rewrite runtime_calculateDerivative_typed, runtime_calculateIntegral_typed.
Qed.

Lemma length_x_values primary primary' :
  x <$> primary' = x <$> primary → length primary' = length primary.
Proof.
  intros H. apply (f_equal length) in H. by rewrite !length_fmap in H.
Qed.

Lemma dispatch_drag_consistent st primary ev :
  consistent st primary → drag_below (length primary) ev →
  ∃ st' primary',
    dispatch MIN_X MAX_X st ev = Normal st'
    ∧ consistent st' primary'
    ∧ x <$> primary' = x <$> primary.
Proof.
  intros (Hn & Hf & Hd & Hi) Hev.
  assert (∀ primary', x <$> primary' = x <$> primary →
            ∀ stale1 stale2 : JsArray num, ∃ st',
              updateDerived {| functionPoints := of_points primary';
                               derivativePoints := stale1;
                               integralPoints := stale2 |} = Normal st'
              ∧ consistent st' primary') as Hupd.
  { intros primary' Hx stale1 stale2. apply length_x_values in Hx.
    eexists. split; [apply updateDerived_typed; lia|].
    split; [lia|done]. }
  destruct ev as [func|index newY|index newY|index newY]; [done|..];
    simpl in Hev; unfold dispatch, handle;
    rewrite <- (Z2Nat.id index) by lia.
  - rewrite Hf, handleFunctionDrag_in_range by lia. simpl.
    edestruct (Hupd (alter (λ p, with_y p newY) (Z.to_nat index) primary))
      as (st' & -> & Hc); [apply x_values_alter_with_y|].
    eexists _, _. split; [done|]. split; [done|].
    apply x_values_alter_with_y.
  - rewrite Hd, handleDerivativeDrag_in_range
      by (rewrite length_calculateDerivative; lia). simpl.
    edestruct Hupd as (st' & -> & Hc); [|eexists _, _; split; [done|split; [done|]]].
    all: by rewrite x_values_calculateIntegral, x_values_alter_with_y,
              x_values_calculateDerivative.
  - rewrite Hi. unfold handleIntegralDrag.
    rewrite edited_in_range by (rewrite length_calculateIntegral; lia).
    rewrite runtime_calculateDerivative_typed. simpl.
    edestruct Hupd as (st' & -> & Hc); [|eexists _, _; split; [done|split; [done|]]].
    all: by rewrite x_values_calculateDerivative, x_values_alter_with_y,
              x_values_calculateIntegral
           by (rewrite length_alter, length_calculateIntegral; lia).
Qed.

(** X11.  The three views stay consistent.  Loading a preset, from any state,
    and a drag of any of the three graphs at the index of a rendered handle,
    from a consistent state, never raise and end in a state whose PRIMARY is
    a well-typed sequence of at least two points and whose other two views are
    its derivative and its integral from [0].  A preset gives the
    [POINTS_COUNT] samples of its function; a drag keeps the x-values. *)
Theorem dispatch_consistent st ev :
  (∀ func, ev = LoadPreset func →
     ∃ st',
       dispatch MIN_X MAX_X st ev = Normal st'
       ∧ consistent st' (generateFunctionPoints func MIN_X MAX_X POINTS_COUNT))
  ∧ (∀ primary,
       consistent st primary → drag_below (length primary) ev →
       ∃ st' primary',
         dispatch MIN_X MAX_X st ev = Normal st'
         ∧ consistent st' primary'
         ∧ x <$> primary' = x <$> primary).
Proof.
  split.
  - intros func ->. unfold dispatch, handle, loadPreset.
    cbv [mbind completion_bind mret completion_ret].
    cbn [derivativePoints integralPoints].
    assert (length (generateFunctionPoints func MIN_X MAX_X POINTS_COUNT)
            = POINTS_COUNT) as Hlen
      by (by rewrite generateFunctionPoints_closed, length_fmap, length_seq).
    eexists. split.
    + apply updateDerived_typed. rewrite Hlen. unfold POINTS_COUNT. lia.
    + split; [|done]. rewrite Hlen. unfold POINTS_COUNT. lia.
  - intros primary. apply dispatch_drag_consistent.
Qed.

(** X12.  Consistency is an invariant of every run: after any sequence of
    drags at indices of rendered handles, started in a consistent state, no
    error has been raised, the state is consistent, and PRIMARY still has the
    x-values it started with. *)
Theorem run_consistent st primary (events : list (Event num)) :
  consistent st primary →
  Forall (drag_below (length primary)) events →
  ∃ st' primary',
    run MIN_X MAX_X st events = Normal st'
    ∧ consistent st' primary'
    ∧ x <$> primary' = x <$> primary.
Proof.
  intros Hc Hev. revert st primary Hc Hev.
  induction events as [|ev events IH]; intros st primary Hc Hev.
  - by exists st, primary.
  - apply Forall_cons in Hev as [Hev Hrest]. cbn [run].
    destruct (dispatch_drag_consistent st primary ev Hc Hev)
      as (st1 & primary1 & -> & Hc1 & Hx1). simpl.
    destruct (IH st1 primary1 Hc1) as (st' & primary' & Hrun & Hc' & Hx').
    { by rewrite (length_x_values _ _ Hx1). }
    exists st', primary'. split; [done|]. split; [done|]. by rewrite Hx'.
Qed.

End AppFacts.

(** * The pointer handler *)

Section FloatOrder.
Import PrimFloat.

Lemma SFcompare_antisym (a b : SpecFloat.spec_float) (c : comparison) :
  SpecFloat.SFcompare a b = Some c →
  SpecFloat.SFcompare b a = Some (CompOpp c).
Proof.
  destruct a as [s1|s1| |s1 m1 e1], b as [s2|s2| |s2 m2 e2]; simpl;
    try discriminate; intros [= <-]; try (by destruct s1, s2);
    try (by destruct s1); try (by destruct s2).
  destruct s1, s2; simpl; try done;
    rewrite (Z.compare_antisym e1 e2);
    destruct (e1 ?= e2)%Z; simpl; try done;
    by rewrite ?CompOpp_involutive, Pos.compare_cont_antisym.
Qed.

Lemma float_not_nan_compare (a b : float) :
  is_nan a = false → is_nan b = false →
  ∃ c, SpecFloat.SFcompare (FloatOps.Prim2SF a) (FloatOps.Prim2SF b) = Some c.
Proof.
  unfold is_nan. rewrite !FloatAxioms.eqb_spec. unfold SpecFloat.SFeqb.
  destruct (FloatOps.Prim2SF a) as [s1|s1| |s1 m1 e1],
           (FloatOps.Prim2SF b) as [s2|s2| |s2 m2 e2];
    simpl; try discriminate; intros _ _; by eexists.
Qed.

Lemma float_ltb_leb (a b : float) : ltb a b = true → leb a b = true.
Proof.
  rewrite FloatAxioms.ltb_spec, FloatAxioms.leb_spec.
  unfold SpecFloat.SFltb, SpecFloat.SFleb.
  by destruct (SpecFloat.SFcompare _ _) as [[]|].
Qed.

(** Two numbers that are not NaN are comparable. *)
Lemma float_not_ltb_leb (a b : float) :
  is_nan a = false → is_nan b = false → ltb a b = false → leb b a = true.
Proof.
  intros Ha Hb. destruct (float_not_nan_compare a b Ha Hb) as [c Hc].
  rewrite FloatAxioms.ltb_spec, FloatAxioms.leb_spec.
  unfold SpecFloat.SFltb, SpecFloat.SFleb.
  rewrite (SFcompare_antisym _ _ _ Hc), Hc. by destruct c.
Qed.

(** [Math.max(-10, Math.min(10, v))] is NaN for NaN and lies between [-10]
    and [10] otherwise. *)
Lemma clampedVal_range (v : float) :
  (is_nan v = true → clampedVal v = nan)
  ∧ (is_nan v = false →
     leb (-10) (clampedVal v) = true ∧ leb (clampedVal v) 10 = true).
Proof.
  unfold clampedVal. change (lit 10) with 10%float.
  change (nopp 10%float) with (-10)%float.
  change (Math_min 10%float v) with (FloatMath.min 10 v).
  change (Math_max (-10)%float (FloatMath.min 10 v))
    with (FloatMath.max (-10) (FloatMath.min 10 v)).
  split; intros Hv.
  - unfold FloatMath.min. rewrite Hv. reflexivity.
  - assert (is_nan (FloatMath.min 10 v) = false
            ∧ leb (FloatMath.min 10 v) 10 = true) as [Hm Hle].
    { unfold FloatMath.min. rewrite Hv.
      change (is_nan 10 || false) with false. cbv iota.
      destruct (ltb 10 v) eqn:H1; [done|].
      destruct (ltb v 10) eqn:H2; [split; [done|by apply float_ltb_leb]|].
      change (FloatMath.is_negative_zero 10) with false. cbv iota.
      split; [done|]. by apply float_not_ltb_leb. }
    unfold FloatMath.max. rewrite Hm.
    change (is_nan (-10) || false) with false. cbv iota.
    destruct (ltb (-10) (FloatMath.min 10 v)) eqn:H1;
      [split; [by apply float_ltb_leb|done]|].
    destruct (ltb (FloatMath.min 10 v) (-10)) eqn:H2; [done|].
    change (FloatMath.is_negative_zero (-10)) with false. done.
Qed.

(** X13.  Whatever the pointer position and the scale, [handleMouseMove]
    calls [onPointDrag] only on an interactive graph with a handle held, with
    the index of that handle, and with a value that lies in [[-10, 10]] or is
    NaN: the clamp lets NaN through. *)
Theorem handleMouseMove_clamped (isInteractive onPointDrag : bool)
    (activePointIndex : option nat) (svgRect_top : option float)
    (yScale_invert : float → float) (clientY : float)
    (index : nat) (value : float) :
  handleMouseMove isInteractive onPointDrag activePointIndex svgRect_top
                  yScale_invert clientY
  = Some (index, value) →
  isInteractive = true ∧ onPointDrag = true
  ∧ activePointIndex = Some index
  ∧ (is_nan value = true
     ∨ (leb (-10) value = true ∧ leb value 10 = true)).
Proof.
  unfold handleMouseMove.
  destruct isInteractive, onPointDrag; cbn [negb orb]; try discriminate.
  destruct activePointIndex as [i|]; [|discriminate].
  destruct svgRect_top as [top|]; [|discriminate].
  intros [= -> <-]. do 3 (split; [done|]).
  set (newVal := yScale_invert _).
  destruct (clampedVal_range newVal) as [Hnan Hin].
  destruct (is_nan newVal) eqn:Hv.
  - left. change (is_nan (clampedVal newVal) = true).
    by rewrite (Hnan eq_refl).
  - right. exact (Hin eq_refl).
Qed.

Lemma handleMouseMove_clamped_witness :
  handleMouseMove true true (Some 3) (Some 100%float) (λ r, 5 - r / 10)%float
                  250%float
  = Some (3, (-8)%float)
  ∧ leb (-10) (-8) = true.
Proof.
  split; [reflexivity|].
  destruct (handleMouseMove_clamped true true (Some 3) (Some 100%float)
              (λ r, 5 - r / 10)%float 250%float 3 (-8)%float)
    as (_ & _ & _ & [Hnan|[Hlo _]]); [reflexivity|discriminate Hnan|exact Hlo].
Defined.

(** The clamp lets NaN and nothing else out of range through. *)
Example handleMouseMove_nan :
  handleMouseMove true true (Some 0) (Some 0%float) (λ _, nan) 0%float
  = Some (0, nan)
  ∧ handleMouseMove true true (Some 0) (Some 0%float) (λ _, infinity) 0%float
    = Some (0, 10%float).
Proof. split; reflexivity. Qed.

End FloatOrder.

(** * The AI commentary *)

Section GeminiFacts.
Context {num : Type}.
Implicit Types (points : list (Point num)) (i k n : nat).

Lemma parity_succ (i : nat) :
  (i mod 2 = 0 → S i mod 2 = 1) ∧ (i mod 2 = 1 → S i mod 2 = 0).
Proof.
  pose proof (Nat.div_mod_eq i 2) as Hi.
  pose proof (Nat.div_mod_eq (S i) 2) as HS.
  pose proof (Nat.mod_upper_bound i 2 ltac:(lia)) as Hi2.
  pose proof (Nat.mod_upper_bound (S i) 2 ltac:(lia)) as HS2.
  lia.
Qed.

(** Keeping the even positions, counted from an even or from an odd start. *)
Lemma filter_index_even {A : Type} (l : list A) (i : nat) :
  let kept := filter_index (λ i, bool_decide (i mod 2 = 0)) i l in
  (i mod 2 = 0 →
   length kept = (length l + 1) / 2 ∧ ∀ k, kept !! k = l !! (2 * k))
  ∧ (i mod 2 = 1 →
     length kept = length l / 2 ∧ ∀ k, kept !! k = l !! (2 * k + 1)).
Proof.
  revert i. induction l as [|a l IH]; intros i; cbn [filter_index length].
  - split; intros _; (split; [done|intros k; by rewrite !lookup_nil]).
  - destruct (IH (S i)) as [IHe IHo].
    destruct (parity_succ i) as [He Ho]. split; intros Hi.
    + rewrite bool_decide_eq_true_2 by done.
      destruct (IHo (He Hi)) as [Hlen Hk]. split.
      * cbn [length]. rewrite Hlen.
        replace (S (length l) + 1) with (length l + 1 * 2) by lia.
        rewrite Nat.div_add by lia. lia.
      * intros [|k]; [done|].
        replace (2 * S k) with (S (2 * k + 1)) by lia.
        cbn [lookup list_lookup]. apply Hk.
    + rewrite bool_decide_eq_false_2 by lia.
      destruct (IHe (Ho Hi)) as [Hlen Hk]. split.
      * rewrite Hlen. f_equal. lia.
      * intros k. rewrite Hk. replace (2 * k + 1) with (S (2 * k)) by lia.
        done.
Qed.

Variable toFixed_1 : num → string.
Variable prompt_of : string → string.
Variable generateContent : string → option (option string).

(** X14.  The points sent to the model are every second point, starting with
    the first: the [k]-th one is [points[2k]], and there are
    [ceil(length / 2)] of them. *)
Theorem downsample_every_second points :
  length (downsample points) = (length points + 1) / 2
  ∧ ∀ k, downsample points !! k = points !! (2 * k).
Proof.
  unfold downsample.
  destruct (filter_index_even points 0) as [H _]. by apply H.
Qed.

(** X15.  [analyzeGraph] always answers with a text that is not empty: the
    model's text when the call returns one that is not empty, the fixed
    apology when the call fails, and the fixed fallback when the call returns
    no text or an empty one. *)
Theorem analyzeGraph_answer points :
  let call := generateContent (prompt_of (sampledPoints toFixed_1 points)) in
  let answer := analyzeGraph toFixed_1 prompt_of generateContent points in
  answer ≠ ""
  ∧ (∀ text, call = Some (Some text) → text ≠ "" → answer = text)
  ∧ (call = Some None ∨ call = Some (Some "") →
     answer = "Konnte keine Analyse generieren.")
  ∧ (call = None →
     answer = "Entschuldigung, beim Analysieren des Graphen ist ein Fehler aufgetreten. Bitte überprüfe deinen API-Schlüssel.").
Proof.
  intros call answer. subst call answer. unfold analyzeGraph.
  destruct (generateContent _) as [[text|]|].
  - split; [by case_bool_decide|]. split; [|split; [|done]].
    + intros text' [= <-] Hne. by rewrite bool_decide_eq_false_2.
    + intros [[=]|[= ->]]. done.
  - split; [done|]. split; [done|]. split; [done|done].
  - split; [done|]. split; [done|]. split; [|done].
    by intros [[=]|[=]].
Qed.

End GeminiFacts.

(** * Successive edits of PRIMARY *)

Section SuccessiveEdits.
Context {num : Type} `{!Number num, !NotANumber num}.
Implicit Types (points : list (Point num)) (i j k n : nat).

(** X16.  Edits of PRIMARY compose as writes to an array do: of two edits at
    the same in-range index the later one wins, and edits at different
    in-range indices can be made in either order. *)
Theorem handleFunctionDrag_twice points (i j : nat) (y1 y2 : num) :
  i < length points → j < length points →
  ∃ first second,
    handleFunctionDrag (of_points points) (Z.of_nat i) y1 = Normal first
    ∧ handleFunctionDrag (of_points points) (Z.of_nat j) y2 = Normal second
    ∧ (i = j →
       handleFunctionDrag first (Z.of_nat j) y2 = Normal second)
    ∧ (i ≠ j →
       handleFunctionDrag first (Z.of_nat j) y2
       = handleFunctionDrag second (Z.of_nat i) y1).
Proof.
  intros Hi Hj. eexists _, _.
  split; [by apply handleFunctionDrag_in_range|].
  split; [by apply handleFunctionDrag_in_range|]. split.
  - intros <-. rewrite handleFunctionDrag_in_range by (by rewrite length_alter).
    do 2 f_equal. rewrite list_alter_alter_eq.
    by apply list_alter_ext.
  - intros Hne.
    rewrite !handleFunctionDrag_in_range by (by rewrite length_alter).
    do 2 f_equal. by apply list_alter_alter_ne.
Qed.

End SuccessiveEdits.

(** * Runs of the further properties *)

Section FurtherRuns.
Import PrimFloat.

Lemma runtime_calculateIntegral_raises_iff_witness :
  Forall is_Some [ Some {| prop_x := Undefined; prop_y := Num 1%float |};
                   Some {| prop_x := Num 1%float; prop_y := Undefined |} ]
  ∧ ∃ integral,
      Runtime.calculateIntegral
        [ Some {| prop_x := Undefined; prop_y := Num 1%float |};
          Some {| prop_x := Num 1%float; prop_y := Undefined |} ] 0%float
      = Normal integral.
Proof.
  assert (Forall is_Some
            [ Some {| prop_x := Undefined; prop_y := Num 1%float |};
              Some {| prop_x := Num 1%float; prop_y := Undefined |} ]) as Hd
    by (repeat constructor; by eexists).
  split; [exact Hd|].
  by apply (runtime_calculateIntegral_raises_iff
              [ Some {| prop_x := Undefined; prop_y := Num 1%float |};
                Some {| prop_x := Num 1%float; prop_y := Undefined |} ]
              0%float).
Defined.

Lemma runtime_calculateDerivative_raises_iff_witness :
  2 ≤ length [ Some (of_point (Float.pt 0 0)); None;
               Some (of_point (Float.pt 2 4)) ]
  ∧ Runtime.calculateDerivative
      [ Some (of_point (Float.pt 0 0)); None; Some (of_point (Float.pt 2 4)) ]
    = TypeError.
Proof.
  split; [simpl; lia|].
  apply (runtime_calculateDerivative_raises_iff
           [ Some (of_point (Float.pt 0 0)); None;
             Some (of_point (Float.pt 2 4)) ]); [simpl; lia|].
  exists 1. split; [simpl; lia|reflexivity].
Defined.

Lemma handleIntegralDrag_in_range_witness :
  1 < length [Float.pt 0 0; Float.pt 1 1; Float.pt 2 4]
  ∧ ∃ reconstructed,
      handleIntegralDrag (of_points [Float.pt 0 0; Float.pt 1 1; Float.pt 2 4])
                         1 3%float
      = Normal (of_points reconstructed)
      ∧ reconstructed = [Float.pt 0 3; Float.pt 1 2; Float.pt 2 1].
Proof.
  split; [simpl; lia|].
  destruct (handleIntegralDrag_in_range
              [Float.pt 0 0; Float.pt 1 1; Float.pt 2 4] 1 3%float)
    as (reconstructed & Hrun & -> & _); [simpl; lia|].
  eexists. split; [exact Hrun|reflexivity].
Defined.

Lemma handleIntegralDrag_local_witness :
  ∃ reconstructed,
    handleIntegralDrag
      (of_points [Float.pt 0 0; Float.pt 1 1; Float.pt 2 4; Float.pt 3 9])
      1 7%float
    = Normal (of_points reconstructed)
    ∧ reconstructed !!! 3%nat
      = calculateDerivative
          [Float.pt 0 0; Float.pt 1 1; Float.pt 2 4; Float.pt 3 9] !!! 3%nat.
Proof.
  apply (handleIntegralDrag_local
           [Float.pt 0 0; Float.pt 1 1; Float.pt 2 4; Float.pt 3 9] 1 3 7%float);
    simpl; lia.
Defined.

Lemma handleDerivativeDrag_prefix_witness :
  ∃ reconstructed,
    handleDerivativeDrag
      (of_points [Float.pt 0 1; Float.pt 1 2; Float.pt 2 3])
      (of_points [Float.pt 0 7; Float.pt 1 8; Float.pt 2 11]) 2 9%float
    = Normal (of_points reconstructed)
    ∧ reconstructed !!! 1%nat = Float.pt 1 8.5.
Proof.
  destruct (handleDerivativeDrag_prefix
              [Float.pt 0 1; Float.pt 1 2; Float.pt 2 3]
              (of_points [Float.pt 0 7; Float.pt 1 8; Float.pt 2 11])
              2 1 9%float)
    as (reconstructed & Hrun & Hj); [simpl; lia|lia|].
  exists reconstructed. split; [exact Hrun|]. rewrite Hj. reflexivity.
Defined.

Lemma dispatch_consistent_witness :
  ∃ st' primary',
    dispatch (-0x1.921fb54442d18p+1)%float 0x1.921fb54442d18p+1%float
      {| functionPoints := of_points [Float.pt 0 0; Float.pt 1 1; Float.pt 2 4];
         derivativePoints := of_points [Float.pt 0 1; Float.pt 1 2; Float.pt 2 3];
         integralPoints := of_points [Float.pt 0 0; Float.pt 1 0.5; Float.pt 2 3] |}
      (DerivativeDrag 1 5%float)
    = Normal st'
    ∧ consistent st' primary'
    ∧ x <$> primary' = [0; 1; 2]%float.
Proof.
  destruct (dispatch_consistent (-0x1.921fb54442d18p+1)%float 0x1.921fb54442d18p+1%float
           {| functionPoints := of_points [Float.pt 0 0; Float.pt 1 1; Float.pt 2 4];
              derivativePoints := of_points [Float.pt 0 1; Float.pt 1 2; Float.pt 2 3];
              integralPoints := of_points [Float.pt 0 0; Float.pt 1 0.5; Float.pt 2 3] |}
           (DerivativeDrag 1 5%float)) as [_ Hdrag].
  apply (Hdrag [Float.pt 0 0; Float.pt 1 1; Float.pt 2 4]).
  - split; [simpl; lia|]. repeat split; reflexivity.
  - simpl. lia.
Defined.

Lemma run_consistent_witness :
  ∃ st' primary',
    run (-0x1.921fb54442d18p+1)%float 0x1.921fb54442d18p+1%float
      {| functionPoints := of_points [Float.pt 0 0; Float.pt 1 1; Float.pt 2 4];
         derivativePoints := of_points [Float.pt 0 1; Float.pt 1 2; Float.pt 2 3];
         integralPoints := of_points [Float.pt 0 0; Float.pt 1 0.5; Float.pt 2 3] |}
      [DerivativeDrag 1 5%float; IntegralDrag 0 1%float; FunctionDrag 2 0%float]
    = Normal st'
    ∧ consistent st' primary'
    ∧ x <$> primary' = [0; 1; 2]%float.
Proof.
  apply (run_consistent (-0x1.921fb54442d18p+1)%float 0x1.921fb54442d18p+1%float
           {| functionPoints := of_points [Float.pt 0 0; Float.pt 1 1; Float.pt 2 4];
              derivativePoints := of_points [Float.pt 0 1; Float.pt 1 2; Float.pt 2 3];
              integralPoints := of_points [Float.pt 0 0; Float.pt 1 0.5; Float.pt 2 3] |}
           [Float.pt 0 0; Float.pt 1 1; Float.pt 2 4]).
  - split; [simpl; lia|]. repeat split; reflexivity.
  - repeat constructor; simpl; lia.
Defined.

Lemma handleFunctionDrag_twice_witness :
  ∃ first second,
    handleFunctionDrag (of_points [Float.pt 0 0; Float.pt 1 1]) 0 5%float
    = Normal first
    ∧ handleFunctionDrag (of_points [Float.pt 0 0; Float.pt 1 1]) 1 6%float
      = Normal second
    ∧ handleFunctionDrag first 1 6%float
      = handleFunctionDrag second 0 5%float.
Proof.
  destruct (handleFunctionDrag_twice
              [Float.pt 0 0; Float.pt 1 1] 0 1 5%float 6%float)
    as (first & second & H1 & H2 & _ & Hne); [simpl; lia..|].
  exists first, second. split; [exact H1|]. split; [exact H2|].
  apply Hne. lia.
Defined.

Lemma analyzeGraph_answer_witness :
  analyzeGraph (λ _ : float, "0.0") (λ s, s) (λ _, Some (Some "ok"))
               [Float.pt 0 0; Float.pt 1 1]
  = "ok".
Proof.
  apply (analyzeGraph_answer (λ _ : float, "0.0") (λ s, s)
           (λ _, Some (Some "ok")) [Float.pt 0 0; Float.pt 1 1] : _ ∧ _);
    [reflexivity|discriminate].
Defined.

(** What the model is sent for three points. *)
Example sampledPoints_run :
  sampledPoints (λ _ : float, "0.0") [Float.pt 0 0; Float.pt 1 1; Float.pt 2 4]
  = "(0.0, 0.0), (0.0, 0.0)".
Proof. reflexivity. Qed.

End FurtherRuns.

Section FurtherExactRuns.

Lemma generateFunctionPoints_increasing_witness :
  (Q2Qc (-3) < Q2Qc 3)%Qc
  ∧ strictly_increasing
      (generateFunctionPoints (λ v, v * v)%Qc (Q2Qc (-3)) (Q2Qc 3) POINTS_COUNT).
Proof.
  split; [reflexivity|].
  apply generateFunctionPoints_increasing; [reflexivity|].
  unfold POINTS_COUNT. lia.
Defined.

Lemma generateFunctionPoints_endpoints_witness :
  2 ≤ POINTS_COUNT
  ∧ x (generateFunctionPoints (λ v, v * v)%Qc (Q2Qc (-3)) (Q2Qc 3) POINTS_COUNT
       !!! (POINTS_COUNT - 1)%nat)
    = Q2Qc 3.
Proof.
  split; [unfold POINTS_COUNT; lia|].
  apply (generateFunctionPoints_endpoints (λ v, v * v)%Qc (Q2Qc (-3)) (Q2Qc 3)
           POINTS_COUNT).
  unfold POINTS_COUNT. lia.
Defined.

Lemma calculateDerivative_of_integral_witness :
  2 ≤ length [Exact.pt 0 1; Exact.pt 1 3; Exact.pt 2 9]
  ∧ strictly_increasing [Exact.pt 0 1; Exact.pt 1 3; Exact.pt 2 9]
  ∧ y (calculateDerivative
         (calculateIntegral [Exact.pt 0 1; Exact.pt 1 3; Exact.pt 2 9] 0%Qc)
       !!! 0%nat)
    = Q2Qc 2.
Proof.
  split; [simpl; lia|]. split; [reflexivity|].
  destruct (calculateDerivative_of_integral
              [Exact.pt 0 1; Exact.pt 1 3; Exact.pt 2 9] 0%Qc)
    as [Hends _]; [simpl; lia|].
  destruct Hends as [Hfirst _]; [reflexivity|].
  rewrite Hfirst. apply Qc_is_canon. reflexivity.
Defined.

Lemma calculateIntegral_edit_shift_witness :
  y (calculateIntegral
       (alter (λ p, with_y p (Q2Qc 5)) 1
          [Exact.pt 0 1; Exact.pt 1 1; Exact.pt 2 1; Exact.pt 3 1]) 0%Qc
     !!! 3%nat)
  = Q2Qc 7.
Proof.
  rewrite (calculateIntegral_edit_shift
             [Exact.pt 0 1; Exact.pt 1 1; Exact.pt 2 1; Exact.pt 3 1]
             0%Qc (Q2Qc 5) 1 3) by (simpl; lia).
  apply Qc_is_canon. reflexivity.
Defined.

End FurtherExactRuns.
